(** * Ticketing microservices: the consistency protocol and the payment path

    A shallow embedding of the parts of the repository that carry the
    protocol:
    - the payment-creation route, [payments/src/routes/new.ts];
    - the version-matching listener of the orders service,
      [orders/src/events/listeners/ticket-updated-listener.ts], as far as
      [docs/ARCH_REVIEW.md] quotes it;
    - the expiration listener, quoted in the same document;
    - the order and ticket state machines and the redelivery pool, which
      the repository keeps in files that are not part of this development
      and which are therefore written down from the specification.

    The payment handler lives in a small state-and-exception monad over the
    service's world (its collections, the calls the payment gateway has
    received, the messages the event bus has accepted).  Every externally
    visible effect costs one unit of [life]; a process that has no life
    left is killed before its next effect, which is how a crash between two
    statements of a handler is observed.  The same handler is also cut at
    its [await]s, so that the runs of several requests can be interleaved.
    Prices and amounts are JavaScript numbers, that is IEEE-754 doubles.
    Listeners are plain state-passing functions: they return what happens
    to the message together with the next world.

    After the protocol come the parts around it: the start-up routines of
    the services ([*/src/index.ts]), the outbox worker and the
    transactional write that [docs/ADR-002-outbox-pattern.md] proposes, the
    origin list and the gateway double of the payments application, and the
    countdown of the client's order page. *)

From Stdlib Require Import ZArith Ascii.
From Stdlib Require SpecFloat.
From stdpp Require Import base decidable option list sorting strings pretty gmap.

Local Open Scope string_scope.
Local Open Scope Z_scope.
Local Open Scope list_scope.

(** ** Types shared by the services ([@srayen-tickets/common]) *)

Module Common.

(** Modelled from the spec: [OrderStatus] of the common package (the
    package is a dependency), "status ∈ {Created, AwaitingPayment, Complete,
    Cancelled}". *)
Inductive OrderStatus : Type :=
| Created
| AwaitingPayment
| Complete
| Cancelled.

#[global] Instance OrderStatus_eq_dec : EqDecision OrderStatus.
Proof. solve_decision. Defined.

(** The errors the route imports and throws, and [GatewayError] for
    whatever the gateway client rejects with. *)
Inductive HttpError : Type :=
| NotFoundError
| NotAuthorizedError
| BadRequestError (message : string)
| GatewayError.

#[global] Instance HttpError_eq_dec : EqDecision HttpError.
Proof. solve_decision. Defined.

(** What a listener does with a message: [msg.ack()], or an exception
    that leaves the message unacknowledged. *)
Inductive Delivery : Type :=
| Ack
| Throw (message : string).

#[global] Instance Delivery_eq_dec : EqDecision Delivery.
Proof. solve_decision. Defined.

End Common.

(** ** JavaScript numbers *)

(** A JavaScript number is an IEEE-754 double: [spec_float] at precision 53
    with exponents up to 1024.  The operations are those of the standard
    library's specification of floating-point arithmetic, which rounds to
    nearest, ties to even. *)
Module JsNumber.
Import SpecFloat.

Definition Number : Type := spec_float.

#[global] Instance Number_eq_dec : EqDecision Number.
Proof. solve_decision. Defined.

Definition prec : Z := 53.
Definition emax : Z := 1024.

(** [x * y] *)
Definition times (x y : Number) : Number := SFmul prec emax x y.

(** The number a whole-number literal denotes: the double nearest to it. *)
Definition of_Z (n : Z) : Number := binary_normalize prec emax n 0 false.

#[global] Arguments times : simpl never.
#[global] Arguments of_Z : simpl never.

(** The whole number a double holds, if it holds one. *)
Definition exact_Z (x : Number) : option Z :=
  match x with
  | S754_zero _ => Some 0
  | S754_finite s m e =>
    let v := if s then Z.neg m else Z.pos m in
    if bool_decide (0 ≤ e) then Some (v * 2 ^ e)
    else if bool_decide (v mod 2 ^ (- e) = 0) then Some (v / 2 ^ (- e))
    else None
  | _ => None
  end.

(** The mantissa of the double that holds a whole number below 2^53: the
    number itself, shifted left until it has 53 digits. *)
Definition normal (p : positive) : positive :=
  Z.to_pos (Z.pos p * 2 ^ (53 - Z.pos (digits2_pos p))).

(** The double that holds a whole number below 2^53 in magnitude. *)
Definition whole (n : Z) : Number :=
  match n with
  | 0 => S754_zero false
  | Z.pos p => S754_finite false (normal p) (Z.pos (digits2_pos p) - 53)
  | Z.neg p => S754_finite true (normal p) (Z.pos (digits2_pos p) - 53)
  end.

End JsNumber.

(** ** The payments service *)

Module Payments.
Import Common JsNumber.

(** The Order replica held by the payments service, with the fields the
    route reads.  The price is a JavaScript number. *)
Record Order : Type := mkOrder {
  order_id : string;
  order_userId : string;
  order_status : OrderStatus;
  order_price : Number
}.

Record Payment : Type := mkPayment {
  payment_id : string;
  payment_orderId : string;
  payment_stripeId : string
}.

(** One call of [stripe.charges.create(params, options)]. *)
Record ChargeCall : Type := mkChargeCall {
  currency : string;
  amount : Number;
  source : string;
  idempotencyKey : string
}.

(** Data of a [PaymentCreated] event. *)
Record PaymentCreatedEvent : Type := mkPaymentCreated {
  event_id : string;
  event_orderId : string;
  event_stripeId : string
}.

(** The outbox document of [docs/ADR-002-outbox-pattern.md]. *)
Record OutboxRecord : Type := mkOutbox {
  aggregateType : string;
  aggregateId : string;
  eventType : string;
  payload : PaymentCreatedEvent;
  published : bool;
  attempts : nat
}.

(** Everything a run of the handler can read or change. *)
Record World : Type := mkWorld {
  orders : list Order;
  payments : list Payment;
  outbox : list OutboxRecord;
  gateway_calls : list ChargeCall;
  bus : list PaymentCreatedEvent
}.

Record Request : Type := mkRequest {
  body_token : string;
  body_orderId : string;
  currentUser : option string
}.

Record Response : Type := mkResponse {
  status : nat;
  sent_id : string
}.

(** *** The handler monad *)

Inductive Run (A : Type) : Type :=
| Returned (a : A) (life : nat) (w : World)
| Thrown (e : HttpError) (w : World)
| Killed (w : World).
Arguments Returned {A} a life w.
Arguments Thrown {A} e w.
Arguments Killed {A} w.

Definition M (A : Type) : Type := nat -> World -> Run A.

#[global] Instance M_ret : MRet M := fun A a life w => Returned a life w.

#[global] Instance M_bind : MBind M := fun A B f m life w =>
  match m life w with
  | Returned a life' w' => f a life' w'
  | Thrown e w' => Thrown e w'
  | Killed w' => Killed w'
  end.

#[global] Instance M_throw : MThrow HttpError M := fun A e _ w => Thrown e w.

(** A query reads the world and costs nothing. *)
Definition query {A : Type} (f : World -> A) : M A :=
  fun life w => Returned (f w) life w.

(** An effect changes the world; the process must still be alive. *)
Definition effect {A : Type} (f : World -> A * World) : M A :=
  fun life w =>
    match life with
    | O => Killed w
    | S life' => Returned (f w).1 life' (f w).2
    end.

(** The world a run leaves behind. *)
Definition world_of {A : Type} (r : Run A) : World :=
  match r with
  | Returned _ _ w => w
  | Thrown _ w => w
  | Killed w => w
  end.

(** *** The collections and the outside world *)

(** The gateway has received one more call. *)
Definition with_gateway_call (call : ChargeCall) (w : World) : World :=
  mkWorld (orders w) (payments w) (outbox w) (gateway_calls w ++ [call]) (bus w).

(** The payments collection holds one more document. *)
Definition with_payment (payment : Payment) (w : World) : World :=
  mkWorld (orders w) (payments w ++ [payment]) (outbox w) (gateway_calls w) (bus w).

(** The bus has taken one more message. *)
Definition with_message (data : PaymentCreatedEvent) (w : World) : World :=
  mkWorld (orders w) (payments w) (outbox w) (gateway_calls w) (bus w ++ [data]).

(** [Order.findById(orderId)] *)
Definition Order_findById (orderId : string) : M (option Order) :=
  query (fun w =>
    List.find (fun o => bool_decide (order_id o = orderId)) (orders w)).

(** [Payment.findOne({ orderId })] *)
Definition Payment_findOne (orderId : string) : M (option Payment) :=
  query (fun w =>
    List.find (fun p => bool_decide (payment_orderId p = orderId)) (payments w)).

Section Handler.

(** What the gateway answers to a call: the id of the charge, or nothing
    when it rejects. *)
Variable stripe_answer : ChargeCall -> option string.
(** The [_id] mongoose gives a document built next to the ones stored. *)
Variable new_ObjectId : list Payment -> string.
(** Whether the bus takes a message. *)
Variable nats_accepts : PaymentCreatedEvent -> bool.

(** [stripe.charges.create(params, { idempotencyKey })]: the gateway
    receives the call, then answers or rejects. *)
Definition stripe_charges_create (call : ChargeCall) : M string :=
  answer ← effect (fun w => (stripe_answer call, with_gateway_call call w));
  match answer with
  | Some charge_id => mret charge_id
  | None => mthrow GatewayError
  end.

(** [Payment.build(attrs)] followed by [payment.save()]. *)
Definition Payment_build_save (orderId stripeId : string) : M Payment :=
  effect (fun w =>
    let payment := mkPayment (new_ObjectId (payments w)) orderId stripeId in
    (payment, with_payment payment w)).

(** [new PaymentCreatedPublisher(natsWrapper.client).publish(data)].  The
    route does not await it: whether or not the bus takes the message, the
    handler goes on. *)
Definition PaymentCreatedPublisher_publish (data : PaymentCreatedEvent) : M unit :=
  effect (fun w =>
    (tt, if nats_accepts data then with_message data w else w)).

(** [res.status(code).send({ id })] *)
Definition res_status_send (code : nat) (id : string) : M Response :=
  effect (fun w => (mkResponse code id, w)).

(** The handler of [POST /api/payments], entered after the [requireAuth]
    and [validateRequest] middlewares. *)
Definition createChargeRouter (req : Request) : M Response :=
  let token := body_token req in
  let orderId := body_orderId req in
  found ← Order_findById orderId;
  match found with
  | None => mthrow NotFoundError
  | Some order =>
    if bool_decide (Some (order_userId order) ≠ currentUser req)
    then mthrow NotAuthorizedError
    else if bool_decide (order_status order = Cancelled)
    then mthrow (BadRequestError "Cannot pay for an cancelled order")
    else if bool_decide (order_status order = Complete)
    then mthrow (BadRequestError "Order is already paid")
    else
      existingPayment ← Payment_findOne orderId;
      match existingPayment with
      | Some _ =>
        mthrow (BadRequestError "Payment already exists for this order")
      | None =>
        charge_id ← stripe_charges_create
          {| currency := "usd";
             amount := times (order_price order) (of_Z 100);
             source := token;
             idempotencyKey := order_id order |};
        payment ← Payment_build_save orderId charge_id;
        _ ← PaymentCreatedPublisher_publish
          {| event_id := payment_id payment;
             event_orderId := payment_orderId payment;
             event_stripeId := payment_stripeId payment |};
        res_status_send 201 (payment_id payment)
      end
  end.

End Handler.

(** *** Vocabulary of the statements *)

(** The order the request names, as the handler looks it up. *)
Definition order_of (req : Request) (w : World) : option Order :=
  List.find (fun o => bool_decide (order_id o = body_orderId req)) (orders w).

(** The payment already stored for the order the request names. *)
Definition payment_of (req : Request) (w : World) : option Payment :=
  List.find (fun p => bool_decide (payment_orderId p = body_orderId req))
            (payments w).

(** The request passes every guard of the handler with [order]. *)
Definition admitted (req : Request) (w : World) (order : Order) : Prop :=
  order_of req w = Some order
  ∧ Some (order_userId order) = currentUser req
  ∧ order_status order ≠ Cancelled
  ∧ order_status order ≠ Complete
  ∧ payment_of req w = None.

(** The call the handler places for an admitted request. *)
Definition charge_for (req : Request) (order : Order) : ChargeCall :=
  {| currency := "usd";
     amount := times (order_price order) (of_Z 100);
     source := body_token req;
     idempotencyKey := order_id order |}.

(** At most one Payment per Order. *)
Definition one_payment_per_order (w : World) : Prop :=
  NoDup (payment_orderId <$> payments w).

(** The outbox holds a record for the payment. *)
Definition outbox_covers (w : World) (p : Payment) : Prop :=
  ∃ r, r ∈ outbox w ∧ aggregateId r = payment_id p.

(** The write of the handler is atomic with its outbox record when every
    payment the run stores is covered by the outbox it leaves. *)
Definition outbox_atomic (before after : World) : Prop :=
  ∀ p, p ∈ payments after → p ∉ payments before → outbox_covers after p.

(** The amount of [call] is the price of [order] in cents, in exact
    arithmetic on whole prices. *)
Definition amount_in_cents (order : Order) (call : ChargeCall) : Prop :=
  ∀ dollars, exact_Z (order_price order) = Some dollars →
             exact_Z (amount call) = Some (dollars * 100).

(** *** Requests in flight

    The handler awaits four times: [Order.findById], [Payment.findOne],
    [stripe.charges.create] and [payment.save()].  While one request
    waits, the process serves the others, so the runs of two requests
    interleave at these points.  [createChargeRouter] above is a request
    served with no other in between. *)

(** Where a request stands: what it awaits, or how it ended. *)
Inductive Stage : Type :=
| Arrived
| OrderFound (order : Order)
| NoPayment (order : Order)
| Charged (charge_id : string)
| Saved (payment : Payment)
| Answered (resp : Response)
| Rejected (e : HttpError).

(** The requests the process is serving, each with its stage. *)
Definition InFlight : Type := list (Request * Stage).

Section InFlight.

Variable stripe_answer : ChargeCall -> option string.
Variable new_ObjectId : list Payment -> string.
Variable nats_accepts : PaymentCreatedEvent -> bool.

(** What a request awaits is carried out, and the handler runs on to its
    next [await]:
    - [Arrived]: [Order.findById] reads the orders, then the guards on the
      order (lines 28-41);
    - [OrderFound]: [Payment.findOne] reads the payments, then the guard on
      the payment (lines 43-46);
    - [NoPayment]: the gateway receives the call and answers (lines 48-52);
    - [Charged]: [payment.save()] writes the document built from the
      charge (lines 54-55);
    - [Saved]: the handler resumes, publishes and answers (lines 57-63). *)
Definition resume (req : Request) (stage : Stage) (w : World) : Stage * World :=
  match stage with
  | Arrived =>
    match List.find (fun o => bool_decide (order_id o = body_orderId req))
                    (orders w) with
    | None => (Rejected NotFoundError, w)
    | Some order =>
      if bool_decide (Some (order_userId order) ≠ currentUser req)
      then (Rejected NotAuthorizedError, w)
      else if bool_decide (order_status order = Cancelled)
      then (Rejected (BadRequestError "Cannot pay for an cancelled order"), w)
      else if bool_decide (order_status order = Complete)
      then (Rejected (BadRequestError "Order is already paid"), w)
      else (OrderFound order, w)
    end
  | OrderFound order =>
    match List.find (fun p => bool_decide (payment_orderId p = body_orderId req))
                    (payments w) with
    | Some _ =>
      (Rejected (BadRequestError "Payment already exists for this order"), w)
    | None => (NoPayment order, w)
    end
  | NoPayment order =>
    let call := {| currency := "usd";
                   amount := times (order_price order) (of_Z 100);
                   source := body_token req;
                   idempotencyKey := order_id order |} in
    (match stripe_answer call with
     | Some charge_id => Charged charge_id
     | None => Rejected GatewayError
     end,
     with_gateway_call call w)
  | Charged charge_id =>
    let payment :=
      mkPayment (new_ObjectId (payments w)) (body_orderId req) charge_id in
    (Saved payment, with_payment payment w)
  | Saved payment =>
    let data := {| event_id := payment_id payment;
                   event_orderId := payment_orderId payment;
                   event_stripeId := payment_stripeId payment |} in
    (Answered (mkResponse 201 (payment_id payment)),
     if nats_accepts data then with_message data w else w)
  | Answered _ | Rejected _ => (stage, w)
  end.

(** The process turns to the [i]-th request in flight. *)
Definition turn (i : nat) (s : InFlight * World) : InFlight * World :=
  match s.1 !! i with
  | Some (req, stage) =>
    let next := resume req stage s.2 in
    (<[i := (req, next.1)]> s.1, next.2)
  | None => s
  end.

(** The process serves its requests in the order of [schedule]. *)
Definition serve (schedule : list nat) (s : InFlight * World)
  : InFlight * World :=
  foldl (fun s i => turn i s) s schedule.

(** Requests served one after another, each to its end (or to the death
    of its process, with the life given) before the next one starts. *)
Definition one_by_one (reqs : list (Request * nat)) (w : World) : World :=
  foldl (fun w r =>
           world_of (createChargeRouter stripe_answer new_ObjectId nats_accepts
                       r.1 r.2 w))
        w reqs.

End InFlight.

End Payments.

(** ** Versioned documents *)

Module Versioned.

(** A document with the version counter the optimistic-locking plugin
    keeps next to its fields. *)
Record Doc (A : Type) : Type := mkDoc {
  doc_body : A;
  doc_version : Z
}.
Arguments mkDoc {A} doc_body doc_version.
Arguments doc_body {A} d.
Arguments doc_version {A} d.

(** A collection, keyed by [_id]. *)
Abbreviation Collection A := (gmap string (Doc A)).

(** [Model.findOne({ _id: id, version: v })] *)
Definition findOne {A : Type} (id : string) (v : Z) (c : Collection A)
  : option (Doc A) :=
  match c !! id with
  | Some d => if bool_decide (doc_version d = v) then Some d else None
  | None => None
  end.

(** Modelled from the spec: the conditional write of the versioned entity
    store (the plugin's [save], whose code is in a dependency): "update
    entity where id = X and version = expected to version = expected+1";
    when no document matches the write is rejected ([None], the
    StaleVersionError). *)
Definition save {A : Type} (id : string) (expected : Z) (body : A)
    (c : Collection A) : option (Collection A) :=
  match findOne id expected c with
  | Some _ => Some (<[id := mkDoc body (expected + 1)]> c)
  | None => None
  end.

(** Every document of [c] is still in [c'], at a version that is not
    smaller. *)
Definition no_regress {A : Type} (c c' : Collection A) : Prop :=
  ∀ (id : string) (d : Doc A), c !! id = Some d →
    ∃ d' : Doc A, c' !! id = Some d' ∧ doc_version d ≤ doc_version d'.

(** Between [c] and [c'] every document was either left alone or moved on
    by exactly one version. *)
Definition bumps_by_one {A : Type} (c c' : Collection A) : Prop :=
  ∀ (id : string) (d d' : Doc A), c !! id = Some d → c' !! id = Some d' →
    d' = d ∨ doc_version d' = doc_version d + 1.

End Versioned.

(** ** The order and ticket state machines *)

Module Machines.
Import Common.

(** Modelled from the spec: the two events of the Order machine, named as
    its transitions name them. *)
Inductive OrderEvent : Type :=
| PaymentValidated
| ExpirationFired.

(** Modelled from the spec: the terminal states of an Order, "terminal
    states are Complete and Cancelled". *)
Definition terminal (s : OrderStatus) : bool :=
  match s with
  | Complete | Cancelled => true
  | Created | AwaitingPayment => false
  end.

(** Modelled from the spec: the Order machine (its transition logic sits in
    the orders service's listeners, of which only one guard is quoted in
    the repository's documents).  "Created --(PaymentValidated)-->
    Complete; Created --(ExpirationFired AND status≠Complete)-->
    Cancelled; any transition attempted from Complete or Cancelled is
    rejected as a no-op".  [None] is the rejected transition.
    AwaitingPayment, which the data model lists without transitions of its
    own, is not terminal and moves like Created. *)
Definition Order_transition (s : OrderStatus) (ev : OrderEvent)
  : option OrderStatus :=
  if terminal s then None
  else match ev with
       | PaymentValidated => Some Complete
       | ExpirationFired => Some Cancelled
       end.

(** Modelled from the spec: the states of a Ticket, "orderId (nullable —
    null means available)". *)
Inductive TicketState : Type :=
| available
| reserved (orderId : string).

#[global] Instance TicketState_eq_dec : EqDecision TicketState.
Proof. solve_decision. Defined.

(** Modelled from the spec: the events of the Ticket machine, each with
    the id of the order it is about. *)
Inductive TicketEvent : Type :=
| OrderCreated (orderId : string)
| OrderCancelled (orderId : string).

#[global] Instance TicketEvent_eq_dec : EqDecision TicketEvent.
Proof. solve_decision. Defined.

(** Modelled from the spec: the Ticket machine (the tickets service's
    order listeners are not among the files of this development).
    "available --(OrderCreated)--> reserved(orderId); reserved(orderId)
    --(OrderCancelled with matching orderId)--> available.  A cancellation
    referencing a non-matching orderId is rejected".  [None] is the
    rejected event. *)
Definition Ticket_transition (st : TicketState) (ev : TicketEvent)
  : option TicketState :=
  match st, ev with
  | available, OrderCreated o => Some (reserved o)
  | reserved a, OrderCancelled b =>
    if bool_decide (a = b) then Some available else None
  | available, OrderCancelled _ => None
  | reserved _, OrderCreated _ => None
  end.

(** Modelled from the spec: the state after the event; a rejected event
    leaves the ticket as it was ("must not be released"). *)
Definition Ticket_apply (st : TicketState) (ev : TicketEvent) : TicketState :=
  default st (Ticket_transition st ev).

(** The state after a sequence of events, applied one by one. *)
Definition Ticket_run (st : TicketState) (evs : list TicketEvent) : TicketState :=
  foldl Ticket_apply st evs.

End Machines.

(** ** The orders service: its listeners *)

Module Orders.
Import Common Versioned Machines.

(** Modelled from the spec: the fields of the local read model of a ticket
    (the model file is not part of this development), "id, price, orderId
    (nullable), version", and the title its events carry. *)
Record Ticket : Type := mkTicket {
  ticket_title : string;
  ticket_price : Z;
  ticket_orderId : option string
}.

(** Modelled from the spec: the fields of an Order, "id, userId, ticketId,
    status, expiresAt, version"; id and version are the key and the counter
    of the document. *)
Record Order : Type := mkOrder {
  order_userId : string;
  order_ticketId : string;
  order_status : OrderStatus;
  order_expiresAt : Z
}.

(** The payloads, as the event contract lists them.
    [TicketUpdated { id, version, title, price, orderId? }] *)
Record TicketUpdatedEvent : Type := mkTicketUpdated {
  tu_id : string;
  tu_version : Z;
  tu_title : string;
  tu_price : Z;
  tu_orderId : option string
}.

(** [ExpirationComplete { orderId }] *)
Record ExpirationCompleteEvent : Type := mkExpirationComplete {
  ec_orderId : string
}.

(** [PaymentCreated { id, orderId, stripeId }] *)
Record PaymentCreatedEvent : Type := mkPaymentCreated {
  pc_id : string;
  pc_orderId : string;
  pc_stripeId : string
}.

(** [OrderCancelled { id, version, ticket: { id } }] *)
Record OrderCancelledEvent : Type := mkOrderCancelled {
  oc_id : string;
  oc_version : Z;
  oc_ticket_id : string
}.

(** The two collections of the service and the events it has emitted. *)
Record World : Type := mkWorld {
  tickets : Collection Ticket;
  orders : Collection Order;
  emitted : list OrderCancelledEvent
}.

(** Modelled from the spec: what [TicketUpdatedListener] does with the
    ticket it found (the lines after its guard are not quoted in the
    repository's documents), "if equal: apply, increment, acknowledge". *)
Definition TicketUpdatedListener_apply (data : TicketUpdatedEvent)
    (ticket : Doc Ticket) (w : World) : Delivery * World :=
  match save (tu_id data) (doc_version ticket)
             (mkTicket (tu_title data) (tu_price data) (tu_orderId data))
             (tickets w) with
  | Some tickets' => (Ack, mkWorld tickets' (orders w) (emitted w))
  | None => (Throw "StaleVersionError", w)
  end.

(** [TicketUpdatedListener.onMessage(data, msg)], as [docs/ARCH_REVIEW.md]
    quotes it: [Ticket.findOne({ _id: data.id, version: data.version - 1 })],
    then [throw new Error("Ticket not found")] when nothing matches, which
    leaves the message to be redelivered. *)
Definition TicketUpdatedListener_onMessage (data : TicketUpdatedEvent)
    (w : World) : Delivery * World :=
  match findOne (tu_id data) (tu_version data - 1) (tickets w) with
  | None => (Throw "Ticket not found", w)
  | Some ticket => TicketUpdatedListener_apply data ticket w
  end.

(** Modelled from the spec: what [ExpirationCompleteListener] does after
    its guard (those lines are not quoted in the repository's documents).
    The Order machine decides: a rejected transition is an acknowledged
    no-op; an accepted one "drives the Cancelled transition and emits a
    cancellation event", written with the conditional write and carrying
    the version after the write. *)
Definition ExpirationCompleteListener_cancel (data : ExpirationCompleteEvent)
    (order : Doc Order) (w : World) : Delivery * World :=
  match Order_transition (order_status (doc_body order)) ExpirationFired with
  | None => (Ack, w)
  | Some status' =>
    let body := doc_body order in
    match save (ec_orderId data) (doc_version order)
               (mkOrder (order_userId body) (order_ticketId body) status'
                        (order_expiresAt body))
               (orders w) with
    | Some orders' =>
      (Ack,
       mkWorld (tickets w) orders'
               (emitted w ++ [mkOrderCancelled (ec_orderId data)
                                (doc_version order + 1)
                                (order_ticketId body)]))
    | None => (Throw "StaleVersionError", w)
    end
  end.

(** The guard of [ExpirationCompleteListener.onMessage], as
    [docs/ARCH_REVIEW.md] quotes it:
    [if (order.status === OrderStatus.Complete) return msg.ack()]. *)
Definition ExpirationCompleteListener_guard (data : ExpirationCompleteEvent)
    (order : Doc Order) (w : World) : Delivery * World :=
  if bool_decide (order_status (doc_body order) = Complete) then (Ack, w)
  else ExpirationCompleteListener_cancel data order w.

(** Modelled from the spec: the lookup with which
    [ExpirationCompleteListener.onMessage(data, msg)] reaches its guard
    (not quoted either).  A missing order leaves the message
    unacknowledged: "failed precondition (e.g. missing referenced
    entity), the message stays Unacked". *)
Definition ExpirationCompleteListener_onMessage (data : ExpirationCompleteEvent)
    (w : World) : Delivery * World :=
  match orders w !! ec_orderId data with
  | None => (Throw "Order not found", w)
  | Some order => ExpirationCompleteListener_guard data order w
  end.

(** Modelled from the spec: [PaymentCreatedListener.onMessage(data, msg)]
    (the listener is not among the files of this development).  The Order
    "transitions to Complete only on a validated payment event"; from a
    terminal state the transition "is rejected as a no-op (idempotent), not
    an error". *)
Definition PaymentCreatedListener_onMessage (data : PaymentCreatedEvent)
    (w : World) : Delivery * World :=
  match orders w !! pc_orderId data with
  | None => (Throw "Order not found", w)
  | Some order =>
    match Order_transition (order_status (doc_body order)) PaymentValidated with
    | None => (Ack, w)
    | Some status' =>
      let body := doc_body order in
      match save (pc_orderId data) (doc_version order)
                 (mkOrder (order_userId body) (order_ticketId body) status'
                          (order_expiresAt body))
                 (orders w) with
      | Some orders' => (Ack, mkWorld (tickets w) orders' (emitted w))
      | None => (Throw "StaleVersionError", w)
      end
    end
  end.

(** A message of one of the subjects the service listens to. *)
Inductive Message : Type :=
| TicketUpdated (data : TicketUpdatedEvent)
| ExpirationComplete (data : ExpirationCompleteEvent)
| PaymentCreated (data : PaymentCreatedEvent).

#[global] Instance TicketUpdatedEvent_eq_dec : EqDecision TicketUpdatedEvent.
Proof. solve_decision. Defined.

#[global] Instance ExpirationCompleteEvent_eq_dec : EqDecision ExpirationCompleteEvent.
Proof. solve_decision. Defined.

#[global] Instance PaymentCreatedEvent_eq_dec : EqDecision PaymentCreatedEvent.
Proof. solve_decision. Defined.

#[global] Instance Message_eq_dec : EqDecision Message.
Proof. solve_decision. Defined.

(** Each subject has its listener. *)
Definition onMessage (m : Message) (w : World) : Delivery * World :=
  match m with
  | TicketUpdated data => TicketUpdatedListener_onMessage data w
  | ExpirationComplete data => ExpirationCompleteListener_onMessage data w
  | PaymentCreated data => PaymentCreatedListener_onMessage data w
  end.

(** The order a message is about, if it is about one. *)
Definition targets (m : Message) : option string :=
  match m with
  | TicketUpdated _ => None
  | ExpirationComplete data => Some (ec_orderId data)
  | PaymentCreated data => Some (pc_orderId data)
  end.

(** Modelled from the spec: the subscription (the base listener is in the
    common package).  A message stays in the redelivery pool until a
    handler acknowledges it: "on handler success transitions to Acked
    (message removed from redelivery pool)"; on an exception "the message
    stays Unacked; the bus redelivers". *)
Record Subscription : Type := mkSubscription {
  world : World;
  pending : list Message
}.

(** Modelled from the spec: one delivery; an acknowledged message leaves
    the pool, a thrown one stays in it. *)
Definition deliver (m : Message) (s : Subscription) : Subscription :=
  match onMessage m (world s) with
  | (Ack, w') =>
    mkSubscription w' (List.filter (fun m' => bool_decide (m' ≠ m)) (pending s))
  | (Throw _, w') => mkSubscription w' (pending s)
  end.

(** Modelled from the spec: the bus delivers messages one after the other,
    in whatever order and as often as it likes ("redelivery", "out-of-order
    and duplicate delivery"). *)
Definition deliveries (ms : list Message) (s : Subscription) : Subscription :=
  foldl (fun s m => deliver m s) s ms.

(** The worlds alone, without the pool. *)
Definition run (ms : list Message) (w : World) : World :=
  foldl (fun w m => (onMessage m w).2) w ms.

End Orders.

(** ** Sample data *)

Module Samples.
Import Common.

(** A gateway that accepts every call and names the charge after its key. *)
Definition gateway_up (call : Payments.ChargeCall) : option string :=
  Some ("ch_" +:+ Payments.idempotencyKey call).

Definition next_id (stored : list Payments.Payment) : string :=
  "pay_" +:+ pretty (length stored).

Definition bus_up (_ : Payments.PaymentCreatedEvent) : bool := true.

(** Four orders of alice's: one open, one cancelled, one complete, one
    open and already paid. *)
Definition shop : Payments.World :=
  Payments.mkWorld
    [Payments.mkOrder "o1" "alice" Created (JsNumber.of_Z 20);
     Payments.mkOrder "o2" "alice" Cancelled (JsNumber.of_Z 15);
     Payments.mkOrder "o3" "alice" Complete (JsNumber.of_Z 30);
     Payments.mkOrder "o4" "alice" Created (JsNumber.of_Z 10)]
    [Payments.mkPayment "pay_0" "o4" "ch_o4"]
    [] [] [].

(** The shop after order o1 has been cancelled. *)
Definition shop_o1_cancelled (stored : list Payments.Payment) : Payments.World :=
  Payments.mkWorld
    [Payments.mkOrder "o1" "alice" Cancelled (JsNumber.of_Z 20);
     Payments.mkOrder "o2" "alice" Cancelled (JsNumber.of_Z 15);
     Payments.mkOrder "o3" "alice" Complete (JsNumber.of_Z 30);
     Payments.mkOrder "o4" "alice" Created (JsNumber.of_Z 10)]
    stored [] [] [].

(** An order priced at 400000000000001 dollars, a whole number that a
    double holds exactly. *)
Definition vault : Payments.World :=
  Payments.mkWorld
    [Payments.mkOrder "o1" "alice" Created (JsNumber.of_Z 400000000000001)]
    [] [] [] [].

Definition pay (orderId : string) (user : string) : Payments.Request :=
  Payments.mkRequest "tok_visa" orderId (Some user).

(** The orders service with a replica of ticket t1 at version 1 and two
    orders, one cancelled and one open. *)
Definition desk : Orders.World :=
  Orders.mkWorld
    {[ "t1" := Versioned.mkDoc (Orders.mkTicket "concert" 20 None) 1 ]}
    {[ "o1" := Versioned.mkDoc (Orders.mkOrder "alice" "t1" Cancelled 900) 1;
       "o2" := Versioned.mkDoc (Orders.mkOrder "bob" "t2" Created 950) 0 ]}
    [].

(** The update that takes t1 to version [v]. *)
Definition update (v : Z) : Orders.TicketUpdatedEvent :=
  Orders.mkTicketUpdated "t1" v "concert" (20 + v) None.

End Samples.

(** ** Service start-up ([payments/src/index.ts], [orders/src/index.ts]) *)

Module Startup.

(** How a start-up routine ends. *)
Inductive Outcome : Type :=
| Returns
| Throws (message : string).

#[global] Instance Outcome_eq_dec : EqDecision Outcome.
Proof. solve_decision. Defined.

(** What a connection routine does on the way: it tries to connect (to a
    Mongo URI, or to the bus under a client id) and it sleeps. *)
Inductive Step : Type :=
| Attempt (target : string)
| Sleep (ms : Z).

#[global] Instance Step_eq_dec : EqDecision Step.
Proof. solve_decision. Defined.

(** The connection attempts of a trace, and the time slept in it. *)
Definition attempts (trace : list Step) : list string :=
  omap (fun s => match s with Attempt t => Some t | Sleep _ => None end) trace.

Definition slept (trace : list Step) : Z :=
  foldr (fun s total => match s with Attempt _ => total | Sleep ms => ms + total end)
        0 trace.

(** The names every object inherits from [Object.prototype].  For such a
    name that no variable bears, [process.env[n]] is the inherited member,
    a function or an object, and not [undefined]. *)
Definition Object_prototype : list string :=
  ["constructor"; "__defineGetter__"; "__defineSetter__"; "hasOwnProperty";
   "__lookupGetter__"; "__lookupSetter__"; "isPrototypeOf";
   "propertyIsEnumerable"; "toString"; "valueOf"; "__proto__";
   "toLocaleString"].

(** [!process.env[n]]: the variable is set to the empty string, or it is
    unset and [n] names nothing inherited. *)
Definition unset (env : gmap string string) (n : string) : bool :=
  match env !! n with
  | Some v => bool_decide (v = "")
  | None => bool_decide (n ∉ Object_prototype)
  end.

(** The names [start] of the payments service passes to [assertEnv]; the
    orders, tickets, expiration and auth services pass some of these. *)
Definition required : list string :=
  ["JWT_KEY"; "MONGO_URI"; "NATS_URL"; "NATS_CLIENT_ID"; "NATS_CLUSTER_ID";
   "STRIPE_KEY"].

(** [assertEnv(names)] *)
Definition assertEnv (env : gmap string string) (names : list string) : Outcome :=
  let missing := List.filter (unset env) names in
  if bool_decide (missing = []) then Returns
  else Throws ("Missing env vars: " +:+ String.concat ", " missing).

(** [connectMongo(uri)]: the loop [for (let i = 1; i <= max; i++)] with
    [max = 20], entered at [i] with [remaining = max + 1 - i] rounds to go.
    [connects i] tells whether the [i]-th [mongoose.connect] resolves. *)
Fixpoint connectMongo_from (connects : nat -> bool) (uri : string)
    (remaining i : nat) : Outcome * list Step :=
  match remaining with
  | O => (Throws "Mongo connection failed after retries", [])
  | S remaining' =>
    if connects i then (Returns, [Attempt uri])
    else
      let rest := connectMongo_from connects uri remaining' (S i) in
      (rest.1, Attempt uri :: Sleep (Z.min 5000 (Z.of_nat i * 500)) :: rest.2)
  end.

Definition connectMongo (connects : nat -> bool) (uri : string)
  : Outcome * list Step :=
  connectMongo_from connects uri 20 1.

(** The trace of [n] failed rounds of [connectMongo], from round [i] on. *)
Definition mongo_backoff (uri : string) (i n : nat) : list Step :=
  flat_map (fun j => [Attempt uri; Sleep (Z.min 5000 (Z.of_nat j * 500))])
           (seq i n).

(** [msg.includes(part)] *)
Definition includes (part msg : string) : bool :=
  match String.index 0 part msg with
  | Some _ => true
  | None => false
  end.

(** How the connection to the bus ends in [start]. *)
Inductive NatsOutcome : Type :=
| ConnectedAs (clientId : string)
| Failed (message : string).

#[global] Instance NatsOutcome_eq_dec : EqDecision NatsOutcome.
Proof. solve_decision. Defined.

Section Nats.

(** [natsWrapper.connect(clusterId, clientId, natsUrl)] at a given attempt:
    it resolves ([None]) or rejects with a message. *)
Variable connect : nat -> string -> option string.
(** [Date.now().toString(36)] and [Math.random().toString(36).slice(2, 6)]
    at a given attempt. *)
Variable stamp : nat -> string.
Variable noise : nat -> string.

(** The client id of an attempt: the base id the first time, the base id
    with a fresh suffix afterwards. *)
Definition clientId_of (baseClientId : string) (attempt : nat) : string :=
  baseClientId +:+
  (if bool_decide (attempt = 1%nat) then ""
   else "-" +:+ stamp attempt +:+ "-" +:+ noise attempt).

(** The loop [for (let attempt = 1; attempt <= 8; attempt++)] of [start],
    entered at [attempt] with [remaining = 9 - attempt] rounds to go, and
    the check of [natsConnected] after it. *)
Fixpoint natsConnect_from (baseClientId : string) (remaining attempt : nat)
  : NatsOutcome * list Step :=
  match remaining with
  | O => (Failed "Failed to connect to NATS after retries.", [])
  | S remaining' =>
    let clientId := clientId_of baseClientId attempt in
    match connect attempt clientId with
    | None => (ConnectedAs clientId, [Attempt clientId])
    | Some msg =>
      if negb (includes "clientID already registered" msg)
         && bool_decide (3 ≤ attempt)%nat
      then (Failed msg, [Attempt clientId])
      else
        let rest := natsConnect_from baseClientId remaining' (S attempt) in
        (rest.1,
         Attempt clientId :: Sleep (Z.min 5000 (Z.of_nat attempt * 800)) :: rest.2)
    end
  end.

Definition natsConnect (baseClientId : string) : NatsOutcome * list Step :=
  natsConnect_from baseClientId 8 1.

(** The attempt is refused, and the refusal is one the loop retries: it
    mentions "clientID already registered", or the attempt is the first or
    the second. *)
Definition retried (baseClientId : string) (j : nat) : Prop :=
  ∃ msg, connect j (clientId_of baseClientId j) = Some msg
         ∧ (includes "clientID already registered" msg = true ∨ (j < 3)%nat).

(** The trace of [n] retried rounds, from round [i] on. *)
Definition nats_backoff (baseClientId : string) (i n : nat) : list Step :=
  flat_map (fun j => [Attempt (clientId_of baseClientId j);
                      Sleep (Z.min 5000 (Z.of_nat j * 800))])
           (seq i n).

End Nats.

End Startup.

(** ** The outbox worker of [docs/ADR-002-outbox-pattern.md] *)

Module OutboxWorker.

(** [OutboxDoc]: the document of the outbox schema, with its [_id]. *)
Record OutboxDoc : Type := mkOutboxDoc {
  oid : string;
  aggregateType : string;
  aggregateId : string;
  eventType : string;
  payload : string;
  published : bool;
  publishedAt : option Z;
  createdAt : Z;
  attempts : Z;
  lastError : option string
}.

#[global] Instance OutboxDoc_eq_dec : EqDecision OutboxDoc.
Proof. solve_decision. Defined.

Definition BATCH_SIZE : nat := 100.
Definition MAX_RETRIES : Z := 10.

(** The outbox collection and the messages the bus has taken, each with
    its subject and its data. *)
Record World : Type := mkWorld {
  outbox : list OutboxDoc;
  nats : list (string * string)
}.

(** The filter [{ published: false, attempts: { $lt: MAX_RETRIES } }]. *)
Definition pending (d : OutboxDoc) : bool :=
  negb (published d) && bool_decide (attempts d < MAX_RETRIES).

(** The order of [.sort({ createdAt: 1 })]. *)
Definition older (d1 d2 : OutboxDoc) : Prop := createdAt d1 ≤ createdAt d2.

#[global] Instance older_dec : RelDecision older.
Proof. intros d1 d2. unfold older. apply _. Defined.

(** [Outbox.find(filter).sort({ createdAt: 1 }).limit(BATCH_SIZE)].  The
    database leaves the order of documents created at the same instant
    open; the merge sort fixes one. *)
Definition Outbox_find (c : list OutboxDoc) : list OutboxDoc :=
  take BATCH_SIZE (merge_sort older (filter pending c)).

(** [Outbox.updateOne(filter, update)]: the first document that matches
    is updated, if there is one. *)
Fixpoint Outbox_updateOne (matches : OutboxDoc -> bool)
    (update : OutboxDoc -> OutboxDoc) (c : list OutboxDoc) : list OutboxDoc :=
  match c with
  | [] => []
  | d :: c' =>
    if matches d then update d :: c'
    else d :: Outbox_updateOne matches update c'
  end.

(** [{ $set: { published: true, publishedAt: new Date() } }] *)
Definition set_published (now : Z) (d : OutboxDoc) : OutboxDoc :=
  mkOutboxDoc (oid d) (aggregateType d) (aggregateId d) (eventType d)
              (payload d) true (Some now) (createdAt d) (attempts d)
              (lastError d).

(** [{ $inc: { attempts: 1 }, $set: { lastError: err.message } }] *)
Definition record_failure (message : string) (d : OutboxDoc) : OutboxDoc :=
  mkOutboxDoc (oid d) (aggregateType d) (aggregateId d) (eventType d)
              (payload d) (published d) (publishedAt d) (createdAt d)
              (attempts d + 1) (Some message).

(** The message [natsWrapper.client.publish(event.eventType, event.payload)]
    hands to the bus. *)
Definition message_of (event : OutboxDoc) : string * string :=
  (eventType event, payload event).

(** How a batch ends: the loop ran to its end, or the process was killed
    on the way. *)
Inductive Finish : Type :=
| Finished
| Killed.

Section Worker.

(** Whether the bus takes the message of an event ([None]) or the publish
    throws, and with what message. *)
Variable publish_error : OutboxDoc -> option string.
(** [new Date()] at the moment an event is marked. *)
Variable now : OutboxDoc -> Z.

(** The loop [for (const event of events)] of [publishBatch].  The publish
    and each update cost one unit of life, as the effects of the payment
    route do.  The updates go by the [_id] of the event read at the start
    of the batch; the one after a publish also asks for
    [published: false].  The updates themselves are taken to succeed. *)
Fixpoint publishEach (events : list OutboxDoc) (life : nat) (w : World)
  : Finish * World :=
  match events with
  | [] => (Finished, w)
  | event :: events' =>
    match life with
    | O => (Killed, w)
    | S life1 =>
      match publish_error event with
      | None =>
        let w1 := mkWorld (outbox w) (nats w ++ [message_of event]) in
        match life1 with
        | O => (Killed, w1)
        | S life2 =>
          publishEach events' life2
            (mkWorld
               (Outbox_updateOne
                  (fun d => bool_decide (oid d = oid event) && negb (published d))
                  (set_published (now event)) (outbox w1))
               (nats w1))
        end
      | Some message =>
        match life1 with
        | O => (Killed, w)
        | S life2 =>
          publishEach events' life2
            (mkWorld
               (Outbox_updateOne
                  (fun d => bool_decide (oid d = oid event))
                  (record_failure message) (outbox w))
               (nats w))
        end
      end
    end
  end.

(** [publishBatch()] *)
Definition publishBatch (life : nat) (w : World) : Finish * World :=
  publishEach (Outbox_find (outbox w)) life w.

(** What the loop does to the stored copy of an event it has read: marked
    when the publish went through (unless it is marked already), a failure
    recorded when the publish threw. *)
Definition settle (d : OutboxDoc) : OutboxDoc :=
  match publish_error d with
  | None => if published d then d else set_published (now d) d
  | Some message => record_failure message d
  end.

(** The events of a batch that the bus takes. *)
Definition accepted (events : list OutboxDoc) : list OutboxDoc :=
  List.filter (fun d => bool_decide (publish_error d = None)) events.

End Worker.

(** A document after some work of the worker: the same event, not
    unpublished, with no fewer attempts. *)
Definition evolves (d d' : OutboxDoc) : Prop :=
  oid d' = oid d
  ∧ aggregateType d' = aggregateType d
  ∧ aggregateId d' = aggregateId d
  ∧ eventType d' = eventType d
  ∧ payload d' = payload d
  ∧ createdAt d' = createdAt d
  ∧ (published d = true → published d' = true)
  ∧ attempts d ≤ attempts d'.

End OutboxWorker.

(** ** The transactional write of [docs/ADR-002-outbox-pattern.md] *)

Module OutboxWrite.
Import Common.

Record Ticket : Type := mkTicket {
  ticket_id : string;
  ticket_price : Z
}.

Record Order : Type := mkOrder {
  order_id : string;
  order_userId : string;
  order_status : OrderStatus;
  order_expiresAt : Z;
  order_ticket : Ticket;
  order_version : Z
}.

(** The payload of the OrderCreated entry; [expiresAt.toISOString()] is
    kept as the instant it denotes. *)
Record OrderCreatedPayload : Type := mkPayload {
  payload_id : string;
  payload_version : Z;
  payload_status : OrderStatus;
  payload_userId : string;
  payload_expiresAt : Z;
  payload_ticket_id : string;
  payload_ticket_price : Z
}.

Record OutboxEntry : Type := mkEntry {
  aggregateType : string;
  aggregateId : string;
  eventType : string;
  payload : OrderCreatedPayload
}.

(** What is stored. *)
Record Db : Type := mkDb {
  tickets : list Ticket;
  orders : list Order;
  outbox : list OutboxEntry
}.

(** A write made with [{ session }]: it is held by the transaction until
    the commit. *)
Inductive Write : Type :=
| SaveOrder (order : Order)
| CreateOutbox (entry : OutboxEntry).

Definition apply_write (d : Db) (wr : Write) : Db :=
  match wr with
  | SaveOrder order => mkDb (tickets d) (orders d ++ [order]) (outbox d)
  | CreateOutbox entry => mkDb (tickets d) (orders d) (outbox d ++ [entry])
  end.

(** The database and the transaction of the request's session, if one is
    open, with the writes it holds. *)
Record State : Type := mkState {
  db : Db;
  transaction : option (list Write)
}.

Inductive Error : Type :=
| Http (e : HttpError)
| DbError (message : string).

Inductive Run (A : Type) : Type :=
| Returned (a : A) (life : nat) (s : State)
| Thrown (e : Error) (s : State)
| Killed (s : State).
Arguments Returned {A} a life s.
Arguments Thrown {A} e s.
Arguments Killed {A} s.

Definition M (A : Type) : Type := nat -> State -> Run A.

#[global] Instance M_ret : MRet M := fun A a life s => Returned a life s.

#[global] Instance M_bind : MBind M := fun A B f m life s =>
  match m life s with
  | Returned a life' s' => f a life' s'
  | Thrown e s' => Thrown e s'
  | Killed s' => Killed s'
  end.

#[global] Instance M_throw : MThrow Error M := fun A e _ s => Thrown e s.

(** [try { body } catch (err) { handler(err) }] *)
Definition try_catch {A : Type} (body : M A) (handler : Error -> M A) : M A :=
  fun life s =>
    match body life s with
    | Returned a life' s' => Returned a life' s'
    | Thrown e s' => handler e life s'
    | Killed s' => Killed s'
    end.

(** [try { body } finally { cleanup }]: the clean-up runs however the body
    ends, unless the process is dead. *)
Definition try_finally {A : Type} (body : M A) (cleanup : State -> State) : M A :=
  fun life s =>
    match body life s with
    | Returned a life' s' => Returned a life' (cleanup s')
    | Thrown e s' => Thrown e (cleanup s')
    | Killed s' => Killed s'
    end.

(** What survives the run: the database.  A transaction that was open when
    the process died, or when the session ended, is lost with it. *)
Definition stored {A : Type} (r : Run A) : Db :=
  match r with
  | Returned _ _ s => db s
  | Thrown _ s => db s
  | Killed s => db s
  end.

(** A step towards the database; the process must be alive to take it, and
    the step can fail. *)
Definition step (failure : option string) (f : State -> State) : M unit :=
  fun life s =>
    match life with
    | O => Killed s
    | S life' =>
      match failure with
      | Some message => Thrown (DbError message) s
      | None => Returned tt life' (f s)
      end
    end.

(** [session.startTransaction()] *)
Definition startTransaction : M unit :=
  fun life s => Returned tt life (mkState (db s) (Some [])).

(** A write with [{ session }]: held by the open transaction; without an
    open transaction it goes to the database at once. *)
Definition write_in_session (wr : Write) (s : State) : State :=
  match transaction s with
  | Some held => mkState (db s) (Some (held ++ [wr]))
  | None => mkState (apply_write (db s) wr) None
  end.

(** [session.commitTransaction()]: all the writes held, at once. *)
Definition commit (s : State) : State :=
  match transaction s with
  | Some held => mkState (foldl apply_write (db s) held) None
  | None => s
  end.

(** [session.abortTransaction()] and [session.endSession()]: the writes
    held are dropped. *)
Definition drop_transaction (s : State) : State := mkState (db s) None.

Record Request : Type := mkRequest {
  body_ticketId : string;
  currentUser_id : string
}.

Section Route.

(** [ticket.isReserved()] *)
Variable isReserved : Ticket -> bool.
(** [status] and [expiresAt], which the revised route uses as it finds
    them. *)
Variable status : OrderStatus.
Variable expiresAt : Z.
(** The [_id] of the order built next to the ones stored. *)
Variable new_ObjectId : list Order -> string.
(** Whether [order.save], [Outbox.create] and [commitTransaction] fail, and
    with what message. *)
Variable save_error : option string.
Variable create_error : option string.
Variable commit_error : option string.

(** The revised handler of [POST /api/orders]. *)
Definition createOrderRouter (req : Request) : M (nat * Order) :=
  fun life s =>
    match List.find (fun t => bool_decide (ticket_id t = body_ticketId req))
                    (tickets (db s)) with
    | None => Thrown (Http NotFoundError) s
    | Some ticket =>
      if isReserved ticket
      then Thrown (Http (BadRequestError "Ticket is already reserved")) s
      else
        (_ ← startTransaction;
         try_finally
           (try_catch
              (let order :=
                 mkOrder (new_ObjectId (orders (db s))) (currentUser_id req)
                         status expiresAt ticket 0 in
               _ ← step save_error (write_in_session (SaveOrder order));
               _ ← step create_error
                     (write_in_session
                        (CreateOutbox
                           (mkEntry "Order" (order_id order) "OrderCreated"
                              (mkPayload (order_id order) (order_version order)
                                 (order_status order) (order_userId order)
                                 (order_expiresAt order)
                                 (ticket_id ticket) (ticket_price ticket)))));
               _ ← step commit_error commit;
               _ ← step None (fun s' => s');
               mret (201%nat, order))
              (fun err life' s' => Thrown err (drop_transaction s')))
           drop_transaction) life s
    end.

End Route.

End OutboxWrite.

(** ** The payments application and its test double for the gateway *)

Module App.

(** [s.split(sep)] for a separator of one character: the pieces between
    the separators, empty ones included; the empty string gives one empty
    piece. *)
Fixpoint split (sep : ascii) (s : string) : list string :=
  match s with
  | EmptyString => [EmptyString]
  | String c s' =>
    if bool_decide (c = sep) then EmptyString :: split sep s'
    else match split sep s' with
         | piece :: pieces => String c piece :: pieces
         | [] => [String c EmptyString]
         end
  end.

(** The string holds the character. *)
Fixpoint mentions (sep : ascii) (s : string) : bool :=
  match s with
  | EmptyString => false
  | String c s' => bool_decide (c = sep) || mentions sep s'
  end.

(** The [origin] option handed to [cors]: [true], or a list of origins. *)
Inductive CorsOrigin : Type :=
| AnyOrigin
| Origins (allowed : list string).

Section Cors.

(** [o.trim()] *)
Variable trim : string -> string.

(** [process.env.CORS_ORIGIN?.split(",").map((o) => o.trim())
    .filter(Boolean) || true].  An array is truthy even when it is empty,
    so [true] is reached only when the variable is not set. *)
Definition corsOrigins (env : gmap string string) : CorsOrigin :=
  match env !! "CORS_ORIGIN" with
  | None => AnyOrigin
  | Some v =>
    Origins (List.filter (fun o => negb (bool_decide (o = "")))
                         (trim <$> split ","%char v))
  end.

End Cors.

(** A charge kept by the test double. *)
Record Charge : Type := mkCharge {
  charge_id : string;
  charge_amount : JsNumber.Number;
  charge_currency : string
}.

(** [stripe.charges.create(opts)] of the test double.  [random] is
    [Math.random().toString(36).slice(2, 10)].  The double reads the amount
    and the currency of its first argument and nothing else: neither the
    source nor the options with the idempotency key. *)
Definition mock_create (random : string) (call : Payments.ChargeCall)
    (charges : list Charge) : Charge * list Charge :=
  let charge := mkCharge ("ch_" +:+ random) (Payments.amount call)
                         (Payments.currency call) in
  (charge, charges ++ [charge]).

(** [stripe.charges.list()] of the test double: [{ data: charges }]. *)
Definition mock_list (charges : list Charge) : list Charge := charges.

(** A sequence of calls of [create], each with its random part. *)
Definition mock_creates (calls : list (string * Payments.ChargeCall))
    (charges : list Charge) : list Charge :=
  foldl (fun cs rc => (mock_create rc.1 rc.2 cs).2) charges calls.

End App.

(** ** The order page of the client ([client/pages/orders/[orderId].js]) *)

Module OrderPage.

(** [Math.round(ms / 1000)] for a whole number of milliseconds: the nearest
    whole number of seconds, a half rounding up.  (The quotient of the two
    JavaScript numbers is exact enough for this as long as the difference
    is below 2^50 milliseconds.) *)
Definition round_seconds (ms : Z) : Z := (ms + 500) / 1000.

(** [findTimeLeft]: [new Date(order.expiresAt) - new Date()], rounded to
    seconds. *)
Definition findTimeLeft (expiresAt now : Z) : Z :=
  round_seconds (expiresAt - now).

(** What [OrderShow] renders. *)
Inductive View : Type :=
| OrderExpired
| TimeLeftToPay (seconds : Z).

(** [if (timeLeft < 0) return <div>Order Expired</div>], the countdown with
    the checkout form otherwise. *)
Definition OrderShow (timeLeft : Z) : View :=
  if bool_decide (timeLeft < 0) then OrderExpired else TimeLeftToPay timeLeft.

(** The state [timeLeft] of the component: [useState(0)] at the first
    render, then what [findTimeLeft] set when it last ran.  [ticks] lists
    its runs so far, each with the [order.expiresAt] it read and the time
    it ran at: the effect runs it once after the first render and after
    every change of [order], and [setInterval] runs it from then on. *)
Definition timeLeft (ticks : list (Z * Z)) : Z :=
  foldl (fun _ tick => findTimeLeft tick.1 tick.2) 0 ticks.

(** What the page shows after the runs of [ticks]. *)
Definition shown (ticks : list (Z * Z)) : View :=
  OrderShow (timeLeft ticks).

End OrderPage.

(** ** More sample data *)

Module MoreSamples.

(** An outbox with a fresh event, one that has failed nine times, one that
    is published and one that has used up its attempts. *)
Definition fresh : OutboxWorker.OutboxDoc :=
  OutboxWorker.mkOutboxDoc "e1" "Order" "o1" "OrderCreated" "{o1}"
    false None 30 0 None.

Definition flaky : OutboxWorker.OutboxDoc :=
  OutboxWorker.mkOutboxDoc "e2" "Order" "o2" "OrderCancelled" "{o2}"
    false None 10 9 (Some "timeout").

Definition sent : OutboxWorker.OutboxDoc :=
  OutboxWorker.mkOutboxDoc "e3" "Order" "o3" "OrderCreated" "{o3}"
    true (Some 6) 5 0 None.

Definition exhausted : OutboxWorker.OutboxDoc :=
  OutboxWorker.mkOutboxDoc "e4" "Order" "o4" "OrderCreated" "{o4}"
    false None 1 10 (Some "timeout").

Definition backlog : OutboxWorker.World :=
  OutboxWorker.mkWorld [fresh; flaky; sent; exhausted] [].

(** The environment of a payments pod. *)
Definition pod_env : gmap string string :=
  list_to_map
    [("JWT_KEY", "asdf"); ("MONGO_URI", "mongodb://payments-mongo-srv:27017/payments");
     ("NATS_URL", "http://nats-srv:4222"); ("NATS_CLIENT_ID", "payments-depl-7c9");
     ("NATS_CLUSTER_ID", "ticketing"); ("STRIPE_KEY", "sk_test_4eC39")].

(** The orders service with one ticket on sale and nothing else. *)
Definition box_office : OutboxWrite.State :=
  OutboxWrite.mkState
    (OutboxWrite.mkDb [OutboxWrite.mkTicket "t1" 20] [] [])
    None.

End MoreSamples.

(** * Properties *)

(** ** JavaScript numbers: whole numbers and their products *)

Module JsNumberFacts.
Import SpecFloat JsNumber.

(** A number of [d] binary digits lies between 2^(d-1) and 2^d. *)
Lemma digits2_pos_bounds p :
  2 ^ (Z.pos (digits2_pos p) - 1) ≤ Z.pos p < 2 ^ Z.pos (digits2_pos p).
Proof.
  induction p as [p IH|p IH|]; cbn [digits2_pos]; [| |done].
  all: rewrite Pos2Z.inj_succ.
  all: replace (Z.succ (Z.pos (digits2_pos p)) - 1)
         with (Z.succ (Z.pos (digits2_pos p) - 1)) by lia.
  all: rewrite !Z.pow_succ_r by lia; lia.
Qed.

(** And that determines its number of digits. *)
Lemma digits2_pos_unique p d :
  2 ^ (d - 1) ≤ Z.pos p < 2 ^ d → Z.pos (digits2_pos p) = d.
Proof.
  intros [Hlow Hhigh]. pose proof (digits2_pos_bounds p) as [Hlow' Hhigh'].
  assert (0 < d).
  { destruct (decide (0 < d)) as [|Hd]; [done|].
    assert (2 ^ d ≤ 2 ^ 0) by (apply Z.pow_le_mono_r; lia). simpl in *. lia. }
  assert (d - 1 < Z.pos (digits2_pos p)).
  { apply (Z.pow_lt_mono_r_iff 2); lia. }
  assert (Z.pos (digits2_pos p) - 1 < d).
  { apply (Z.pow_lt_mono_r_iff 2); lia. }
  lia.
Qed.

(** Appending [k] zeros multiplies by 2^k. *)
Lemma iter_xO_spec k p : Z.pos (Pos.iter xO p k) = Z.pos p * 2 ^ Z.pos k.
Proof.
  induction k as [|k IH] using Pos.peano_ind; [simpl; lia|].
  rewrite Pos.iter_succ, Pos2Z.inj_succ, Z.pow_succ_r by lia.
  rewrite Pos2Z.inj_xO, IH. lia.
Qed.

(** The library's two iterators agree. *)
Lemma iter_pos_iter {A} (f : A → A) k x : iter_pos f k x = Pos.iter f x k.
Proof.
  revert x. induction k as [k IH|k IH|]; intros x; simpl; [|by rewrite !IH|done].
  by rewrite !IH, <- !Pos.iter_swap.
Qed.

(** Shifting out [k] trailing zeros loses nothing. *)
Lemma shr_exact k p :
  iter_pos shr_1 k (Build_shr_record (Z.pos (Pos.iter xO p k)) false false)
  = Build_shr_record (Z.pos p) false false.
Proof.
  rewrite iter_pos_iter.
  induction k as [|k IH] using Pos.peano_ind; [done|].
  rewrite !Pos.iter_succ, <- Pos.iter_swap. simpl. exact IH.
Qed.

(** A mantissa of 53 digits is in place: nothing is shifted out. *)
Lemma shr_fexp_in_place r e :
  Z.pos (digits2_pos r) = 53 → -1074 ≤ e →
  shr_fexp prec emax (Z.pos r) e loc_Exact
  = (Build_shr_record (Z.pos r) false false, e).
Proof.
  intros Hr He. unfold shr_fexp, fexp, emin, prec, emax. cbn [Zdigits2].
  rewrite Hr, Z.max_l by lia.
  by replace (53 + e - 53 - e) with 0 by lia.
Qed.

(** A mantissa of 53 digits followed by [j] zeros is rounded to itself. *)
Lemma binary_round_aux_exact s r j e :
  Z.pos (digits2_pos r) = 53 → 0 ≤ j → -1074 ≤ e + j ≤ 971 →
  binary_round_aux prec emax s (Z.pos r * 2 ^ j) e loc_Exact
  = S754_finite s r (e + j).
Proof.
  intros Hr Hj He.
  assert (Hfirst : shr_fexp prec emax (Z.pos r * 2 ^ j) e loc_Exact
                   = (Build_shr_record (Z.pos r) false false, e + j)).
  { destruct j as [|j|j]; [| |lia].
    - rewrite Z.pow_0_r, Z.mul_1_r, Z.add_0_r.
      apply shr_fexp_in_place; [done|lia].
    - rewrite <- iter_xO_spec.
      unfold shr_fexp, fexp, emin, prec, emax. cbn [Zdigits2].
      assert (Hd : Z.pos (digits2_pos (Pos.iter xO r j)) = 53 + Z.pos j).
      { apply digits2_pos_unique. rewrite iter_xO_spec.
        pose proof (digits2_pos_bounds r) as Hb. rewrite Hr in Hb.
        replace (53 + Z.pos j - 1) with (52 + Z.pos j) by lia.
        rewrite !Z.pow_add_r by lia. simpl (53 - 1) in Hb.
        assert (0 < 2 ^ Z.pos j) by (apply Z.pow_pos_nonneg; lia). nia. }
      rewrite Hd, Z.max_l by lia.
      replace (53 + Z.pos j + e - 53 - e) with (Z.pos j) by lia.
      cbn [shr shr_record_of_loc]. by rewrite shr_exact. }
  unfold binary_round_aux. rewrite Hfirst.
  cbn [shr_m loc_of_shr_record round_nearest_even].
  rewrite shr_fexp_in_place by (done || lia). cbn [shr_m].
  unfold emax, prec. destruct (Z.leb_spec (e + j) (1024 - 53)); [done|lia].
Qed.

(** The normal mantissa of a number below 2^53 has 53 digits. *)
Lemma normal_spec p :
  Z.pos p < 2 ^ 53 →
  Z.pos (digits2_pos p) ≤ 53
  ∧ Z.pos (normal p) = Z.pos p * 2 ^ (53 - Z.pos (digits2_pos p))
  ∧ Z.pos (digits2_pos (normal p)) = 53.
Proof.
  intros Hp. pose proof (digits2_pos_bounds p) as [Hlow Hhigh].
  assert (Hd : Z.pos (digits2_pos p) ≤ 53).
  { assert (Z.pos (digits2_pos p) - 1 < 53); [|lia].
    apply (Z.pow_lt_mono_r_iff 2); lia. }
  assert (Hpow : 0 < 2 ^ (53 - Z.pos (digits2_pos p)))
    by (apply Z.pow_pos_nonneg; lia).
  assert (Hn : Z.pos (normal p) = Z.pos p * 2 ^ (53 - Z.pos (digits2_pos p))).
  { unfold normal. rewrite Z2Pos.id; [done|nia]. }
  split_and!; [done..|].
  apply digits2_pos_unique. rewrite Hn. split.
  - replace (53 - 1) with ((Z.pos (digits2_pos p) - 1) + (53 - Z.pos (digits2_pos p))) by lia.
    rewrite Z.pow_add_r by lia. nia.
  - replace 53 with (Z.pos (digits2_pos p) + (53 - Z.pos (digits2_pos p))) at 2 by lia.
    rewrite Z.pow_add_r by lia. nia.
Qed.

(** The double of a whole number below 2^53 in magnitude. *)
Lemma binary_round_whole s p :
  Z.pos p < 2 ^ 53 →
  binary_round prec emax s p 0
  = S754_finite s (normal p) (Z.pos (digits2_pos p) - 53).
Proof.
  intros Hp. destruct (normal_spec p Hp) as (Hd & Hn & Hdn).
  unfold binary_round.
  assert (Halign : shl_align p 0 (fexp prec emax (Z.pos (digits2_pos p) + 0))
                   = (normal p, Z.pos (digits2_pos p) - 53)).
  { unfold shl_align, fexp, emin, prec, emax.
    rewrite Z.add_0_r, Z.max_l, Z.sub_0_r by lia.
    destruct (Z.pos (digits2_pos p) - 53) as [|k|k] eqn:Hk; [|lia|].
    - f_equal. apply Pos2Z.inj. rewrite Hn.
      replace (53 - Z.pos (digits2_pos p)) with 0 by lia. simpl. lia.
    - f_equal. apply Pos2Z.inj. rewrite Hn, iter_xO_spec.
      by replace (53 - Z.pos (digits2_pos p)) with (Z.pos k) by lia. }
  rewrite Halign.
  rewrite <- (Z.mul_1_r (Z.pos (normal p))), <- (Z.pow_0_r 2).
  rewrite binary_round_aux_exact by (done || lia).
  by rewrite Z.add_0_r.
Qed.

(** A whole-number literal below 2^53 in magnitude denotes its double. *)
Lemma of_Z_whole n :
  Z.abs n < 2 ^ 53 → of_Z n = whole n.
Proof.
  intros Hn. destruct n as [|p|p]; [done|..];
    apply binary_round_whole; simpl in Hn; lia.
Qed.

(** The product of two whole numbers is exact as long as it stays below
    2^53. *)
Lemma SFmul_whole sa sb a b :
  Z.pos (a * b) < 2 ^ 53 →
  SFmul prec emax
    (S754_finite sa (normal a) (Z.pos (digits2_pos a) - 53))
    (S754_finite sb (normal b) (Z.pos (digits2_pos b) - 53))
  = S754_finite (xorb sa sb) (normal (a * b)) (Z.pos (digits2_pos (a * b)) - 53).
Proof.
  intros Hab. rewrite Pos2Z.inj_mul in Hab.
  assert (Ha : Z.pos a < 2 ^ 53) by nia.
  assert (Hb : Z.pos b < 2 ^ 53) by nia.
  destruct (normal_spec a Ha) as (Hda & Hna & _).
  destruct (normal_spec b Hb) as (Hdb & Hnb & _).
  destruct (normal_spec (a * b)) as (Hdab & Hnab & Hdnab);
    [by rewrite Pos2Z.inj_mul|].
  pose proof (digits2_pos_bounds a) as [Hla _].
  pose proof (digits2_pos_bounds b) as [Hlb _].
  pose proof (digits2_pos_bounds (a * b)) as [_ Hhab].
  set (da := Z.pos (digits2_pos a)) in *.
  set (db := Z.pos (digits2_pos b)) in *.
  set (dab := Z.pos (digits2_pos (a * b))) in *.
  assert (Hdigits : da + db - 2 < dab).
  { apply (Z.pow_lt_mono_r_iff 2); [lia|lia|].
    replace (da + db - 2) with ((da - 1) + (db - 1)) by lia.
    rewrite Z.pow_add_r by lia. rewrite Pos2Z.inj_mul in Hhab.
    assert (0 < 2 ^ (da - 1)) by (apply Z.pow_pos_nonneg; lia).
    assert (0 < 2 ^ (db - 1)) by (apply Z.pow_pos_nonneg; lia).
    nia. }
  cbn [SFmul].
  assert (Hmantissa : Z.pos (normal a * normal b)
                      = Z.pos (normal (a * b)) * 2 ^ (53 + dab - da - db)).
  { rewrite Pos2Z.inj_mul, Hna, Hnb, Hnab, Pos2Z.inj_mul.
    rewrite <- !Z.mul_assoc. f_equal.
    rewrite (Z.mul_comm (2 ^ (53 - da))), <- !Z.mul_assoc. f_equal.
    rewrite <- !Z.pow_add_r by lia. f_equal. lia. }
  rewrite Hmantissa, binary_round_aux_exact by (done || lia).
  f_equal. lia.
Qed.

(** A whole number below 2^53 in magnitude is held exactly. *)
Lemma exact_Z_of_Z n : Z.abs n < 2 ^ 53 → exact_Z (of_Z n) = Some n.
Proof.
  intros Hn. rewrite of_Z_whole by done.
  destruct n as [|p|p]; [done|..]; unfold whole, exact_Z.
  all: destruct (normal_spec p) as (Hd & Hnp & _); [simpl in Hn; lia|].
  all: assert (0 < 2 ^ (53 - Z.pos (digits2_pos p)))
         by (apply Z.pow_pos_nonneg; lia).
  all: rewrite <- ?Pos2Z.opp_pos, Hnp.
  all: case_bool_decide as He.
  all: try (replace (Z.pos (digits2_pos p) - 53) with 0 by lia;
            replace (53 - Z.pos (digits2_pos p)) with 0 by lia;
            f_equal; lia).
  all: replace (- (Z.pos (digits2_pos p) - 53))
         with (53 - Z.pos (digits2_pos p)) by lia.
  - rewrite Z.mod_mul, bool_decide_eq_true_2 by lia.
    by rewrite Z.div_mul by lia.
  - rewrite <- Z.mul_opp_l, Z.mod_mul, bool_decide_eq_true_2 by lia.
    by rewrite Z.div_mul by lia.
Qed.

(** Trailing zeros of a mantissa of at least 53 digits are shifted out
    before anything is rounded. *)
Lemma binary_round_aux_strip s p j e :
  53 ≤ Z.pos (digits2_pos p) → 0 ≤ j →
  -1074 ≤ Z.pos (digits2_pos p) + e + j - 53 →
  binary_round_aux prec emax s (Z.pos p * 2 ^ j) e loc_Exact
  = binary_round_aux prec emax s (Z.pos p) (e + j) loc_Exact.
Proof.
  intros Hp Hj He. destruct j as [|j|j]; [| |lia].
  { by rewrite Z.pow_0_r, Z.mul_1_r, Z.add_0_r. }
  assert (Hd : Z.pos (digits2_pos (Pos.iter xO p j))
               = Z.pos (digits2_pos p) + Z.pos j).
  { apply digits2_pos_unique. rewrite iter_xO_spec.
    pose proof (digits2_pos_bounds p) as Hb.
    replace (Z.pos (digits2_pos p) + Z.pos j - 1)
      with ((Z.pos (digits2_pos p) - 1) + Z.pos j) by lia.
    rewrite !Z.pow_add_r by lia.
    assert (0 < 2 ^ Z.pos j) by (apply Z.pow_pos_nonneg; lia). nia. }
  assert (Hfirst :
    shr_fexp prec emax (Z.pos p * 2 ^ Z.pos j) e loc_Exact
    = shr_fexp prec emax (Z.pos p) (e + Z.pos j) loc_Exact).
  { rewrite <- iter_xO_spec.
    unfold shr_fexp, fexp, emin, prec, emax. cbn [Zdigits2].
    rewrite Hd, !Z.max_l by lia. cbn [shr_record_of_loc].
    destruct (Z.pos (digits2_pos p) - 53) as [|t|t] eqn:Ht; [| |lia].
    - replace (Z.pos (digits2_pos p) + Z.pos j + e - 53 - e)
        with (Z.pos j) by lia.
      replace (Z.pos (digits2_pos p) + (e + Z.pos j) - 53 - (e + Z.pos j))
        with 0 by lia.
      cbn [shr]. by rewrite shr_exact.
    - replace (Z.pos (digits2_pos p) + Z.pos j + e - 53 - e)
        with (Z.pos (t + j)) by lia.
      replace (Z.pos (digits2_pos p) + (e + Z.pos j) - 53 - (e + Z.pos j))
        with (Z.pos t) by lia.
      cbn [shr]. rewrite !iter_pos_iter, Pos.iter_add.
      rewrite <- (iter_pos_iter shr_1 j), shr_exact. f_equal. lia. }
  unfold binary_round_aux. by rewrite Hfirst.
Qed.

(** The product of two whole numbers below 2^53 is their product rounded
    to the nearest double. *)
Lemma SFmul_rounds sa sb a b :
  Z.pos a < 2 ^ 53 → Z.pos b < 2 ^ 53 →
  SFmul prec emax
    (S754_finite sa (normal a) (Z.pos (digits2_pos a) - 53))
    (S754_finite sb (normal b) (Z.pos (digits2_pos b) - 53))
  = binary_round prec emax (xorb sa sb) (a * b) 0.
Proof.
  intros Ha Hb.
  destruct (decide (Z.pos (a * b) < 2 ^ 53)) as [Hab|Hab].
  { by rewrite SFmul_whole, binary_round_whole. }
  destruct (normal_spec a Ha) as (Hda & Hna & _).
  destruct (normal_spec b Hb) as (Hdb & Hnb & _).
  pose proof (digits2_pos_bounds (a * b)) as [_ Hhab].
  assert (Hdab : 53 < Z.pos (digits2_pos (a * b))).
  { apply (Z.pow_lt_mono_r_iff 2); lia. }
  cbn [SFmul].
  assert (Hmantissa :
    Z.pos (normal a * normal b)
    = Z.pos (a * b)
      * 2 ^ (106 - Z.pos (digits2_pos a) - Z.pos (digits2_pos b))).
  { rewrite Pos2Z.inj_mul, Hna, Hnb, Pos2Z.inj_mul.
    rewrite <- !Z.mul_assoc. f_equal.
    rewrite (Z.mul_comm (2 ^ _)), <- !Z.mul_assoc. f_equal.
    rewrite <- Z.pow_add_r by lia. f_equal. lia. }
  rewrite Hmantissa, binary_round_aux_strip by lia.
  replace (Z.pos (digits2_pos a) - 53 + (Z.pos (digits2_pos b) - 53)
           + (106 - Z.pos (digits2_pos a) - Z.pos (digits2_pos b)))
    with 0 by lia.
  unfold binary_round, shl_align, fexp, emin, prec, emax.
  rewrite Z.add_0_r, Z.max_l, Z.sub_0_r by lia.
  by destruct (Z.pos (digits2_pos (a * b)) - 53) as [|t|t] eqn:Ht; [lia| |lia].
Qed.

(** [a * b] on whole numbers below 2^53: the double nearest to the
    product. *)
Lemma times_of_Z a b :
  Z.abs a < 2 ^ 53 → 0 < b < 2 ^ 53 →
  times (of_Z a) (of_Z b) = of_Z (a * b).
Proof.
  intros Ha Hb. rewrite (of_Z_whole a), (of_Z_whole b) by lia. unfold times.
  destruct a as [|a|a], b as [|b|b]; try done; try lia;
    apply SFmul_rounds; simpl in Ha; lia.
Qed.
End JsNumberFacts.

(** ** The payment path *)

Module PaymentsFacts.
Import Common JsNumber Payments.

Section Facts.

Variable stripe_answer : ChargeCall -> option string.
Variable new_ObjectId : list Payment -> string.
Variable nats_accepts : PaymentCreatedEvent -> bool.

Local Abbreviation handler :=
  (createChargeRouter stripe_answer new_ObjectId nats_accepts).

(** The payment the handler builds for an admitted request. *)
Local Abbreviation built req cid w :=
  (mkPayment (new_ObjectId (payments w)) (body_orderId req) cid).

Local Abbreviation announcement p :=
  (mkPaymentCreated (payment_id p) (payment_orderId p) (payment_stripeId p)).

(** The handler, statement by statement: the guards, then one case for
    every point at which the process can stop. *)
Lemma guards_unfold req life w :
  handler req life w =
  match order_of req w with
  | None => Thrown NotFoundError w
  | Some order =>
    if bool_decide (Some (order_userId order) ≠ currentUser req)
    then Thrown NotAuthorizedError w
    else if bool_decide (order_status order = Cancelled)
    then Thrown (BadRequestError "Cannot pay for an cancelled order") w
    else if bool_decide (order_status order = Complete)
    then Thrown (BadRequestError "Order is already paid") w
    else match payment_of req w with
         | Some _ =>
           Thrown (BadRequestError "Payment already exists for this order") w
         | None =>
           match life with
           | O => Killed w
           | S life1 =>
             let w1 := with_gateway_call (charge_for req order) w in
             match stripe_answer (charge_for req order) with
             | None => Thrown GatewayError w1
             | Some cid =>
               match life1 with
               | O => Killed w1
               | S life2 =>
                 let p := built req cid w1 in
                 let w2 := with_payment p w1 in
                 match life2 with
                 | O => Killed w2
                 | S life3 =>
                   let w3 := if nats_accepts (announcement p)
                             then with_message (announcement p) w2 else w2 in
                   match life3 with
                   | O => Killed w3
                   | S life4 => Returned (mkResponse 201 (payment_id p)) life4 w3
                   end
                 end
               end
             end
           end
         end
  end.
Proof.
  unfold createChargeRouter, Order_findById, Payment_findOne,
    stripe_charges_create, Payment_build_save,
    PaymentCreatedPublisher_publish, res_status_send,
    query, effect, mbind, M_bind, mret, M_ret, mthrow, M_throw,
    order_of, payment_of, charge_for.
  simpl.
  destruct (List.find _ (orders w)) as [order|]; [|reflexivity].
  repeat (case_bool_decide; [reflexivity|]).
  destruct (List.find _ (payments w)) as [p|]; [reflexivity|].
  destruct life as [|life1]; [reflexivity|]. simpl.
  destruct (stripe_answer _) as [cid|]; [|reflexivity].
  destruct life1 as [|life2]; [reflexivity|]. simpl.
  destruct life2 as [|life3]; [reflexivity|]. simpl.
  destruct life3 as [|life4]; reflexivity.
Qed.

(** A request that is not admitted is thrown out in the world it came
    into. *)
Lemma not_admitted_thrown req life w :
  (∀ order, ¬ admitted req w order) →
  ∃ e, handler req life w = Thrown e w ∧ e ≠ GatewayError.
Proof.
  intros Hno. rewrite guards_unfold.
  destruct (order_of req w) as [order|] eqn:Horder; [|by eexists].
  case_bool_decide as Howner; [by eexists|].
  case_bool_decide as Hcancelled; [by eexists|].
  case_bool_decide as Hcomplete; [by eexists|].
  destruct (payment_of req w) as [p|] eqn:Hpayment; [by eexists|].
  destruct (Hno order). unfold admitted.
  split_and!; try done;
    by destruct (decide (Some (order_userId order) = currentUser req)).
Qed.

(** An admitted request runs into the tail of the handler. *)
Lemma admitted_guards req w order :
  admitted req w order →
  order_of req w = Some order
  ∧ bool_decide (Some (order_userId order) ≠ currentUser req) = false
  ∧ bool_decide (order_status order = Cancelled) = false
  ∧ bool_decide (order_status order = Complete) = false
  ∧ payment_of req w = None.
Proof.
  intros (Horder & Howner & Hcancelled & Hcomplete & Hpayment).
  split_and!; try done.
  - apply bool_decide_eq_false. by intros [].
  - by apply bool_decide_eq_false.
  - by apply bool_decide_eq_false.
Qed.

(** The calls the gateway has received after a run. *)
Lemma gateway_calls_after req life w :
  gateway_calls (world_of (handler req life w)) =
  match order_of req w with
  | Some order =>
    if bool_decide (Some (order_userId order) = currentUser req
                    ∧ order_status order ≠ Cancelled
                    ∧ order_status order ≠ Complete
                    ∧ payment_of req w = None
                    ∧ life ≠ 0%nat)
    then gateway_calls w ++ [charge_for req order]
    else gateway_calls w
  | None => gateway_calls w
  end.
Proof.
  rewrite guards_unfold.
  destruct (order_of req w) as [order|]; [|done].
  case_bool_decide as Howner.
  { rewrite bool_decide_eq_false_2; [done|]. by intros [? _]. }
  case_bool_decide as Hcancelled.
  { rewrite bool_decide_eq_false_2; [done|]. by intros (_ & ? & _). }
  case_bool_decide as Hcomplete.
  { rewrite bool_decide_eq_false_2; [done|]. by intros (_ & _ & ? & _). }
  destruct (payment_of req w) as [p|].
  { rewrite bool_decide_eq_false_2; [done|]. by intros (_ & _ & _ & ? & _). }
  destruct life as [|life1].
  { rewrite bool_decide_eq_false_2; [done|]. by intros (_ & _ & _ & _ & ?). }
  rewrite bool_decide_eq_true_2.
  2:{ split_and!; try done;
      by destruct (decide (Some (order_userId order) = currentUser req)). }
  cbv zeta.
  destruct (stripe_answer _) as [cid|]; [|done].
  destruct life1 as [|[|[|life4]]]; simpl; try done;
    by destruct (nats_accepts _).
Qed.

(** The handler never touches the outbox. *)
Lemma outbox_untouched req life w :
  outbox (world_of (handler req life w)) = outbox w.
Proof.
  rewrite guards_unfold.
  destruct (order_of req w) as [order|]; [|done].
  repeat (case_bool_decide; [done|]).
  destruct (payment_of req w); [done|].
  destruct life as [|life1]; [done|]. cbv zeta.
  destruct (stripe_answer _) as [cid|]; [|done].
  destruct life1 as [|[|[|life4]]]; simpl; try done;
    by destruct (nats_accepts _).
Qed.

(** The payments stored after a run: those stored before and at most one
    more, for the order of the request. *)
Lemma payments_after req life w :
  payments (world_of (handler req life w)) = payments w
  ∨ payment_of req w = None
    ∧ ∃ p, payment_orderId p = body_orderId req
           ∧ payments (world_of (handler req life w)) = payments w ++ [p].
Proof.
  rewrite guards_unfold.
  destruct (order_of req w) as [order|]; [|by left].
  repeat (case_bool_decide; [by left|]).
  destruct (payment_of req w); [by left|].
  destruct life as [|life1]; [by left|]. cbv zeta.
  destruct (stripe_answer _) as [cid|]; [|by left].
  destruct life1 as [|[|[|life4]]]; simpl; [by left|right..];
    (split; [done|]);
    exists (mkPayment (new_ObjectId (payments w)) (body_orderId req) cid);
    (split; [done|]); try done; by destruct (nats_accepts _).
Qed.

(** No payment is stored yet for the order of the request. *)
Lemma payment_of_None req w :
  payment_of req w = None → body_orderId req ∉ payment_orderId <$> payments w.
Proof.
  unfold payment_of. intros Hnone Hin.
  apply list_elem_of_fmap in Hin as (p & Heq & Hin).
  apply list_elem_of_In in Hin.
  pose proof (List.find_none _ _ Hnone p Hin) as Hp. simpl in Hp.
  by apply bool_decide_eq_false in Hp.
Qed.

(** C9.  A request that fails a guard of the handler (the order is not
    found; the requester is not its owner; the order is Cancelled; it is
    Complete; a Payment is already stored for it) is answered with the
    error of the first guard it fails, and the run ends in the very world
    it started in: no call has reached the gateway and no Payment has been
    saved.  This holds whatever life the process has left. *)
Theorem failed_precondition_changes_nothing req life w :
  (order_of req w = None →
   handler req life w = Thrown NotFoundError w)
  ∧ (∀ order, order_of req w = Some order →
       Some (order_userId order) ≠ currentUser req →
       handler req life w = Thrown NotAuthorizedError w)
  ∧ (∀ order, order_of req w = Some order →
       Some (order_userId order) = currentUser req →
       order_status order = Cancelled →
       handler req life w =
       Thrown (BadRequestError "Cannot pay for an cancelled order") w)
  ∧ (∀ order, order_of req w = Some order →
       Some (order_userId order) = currentUser req →
       order_status order = Complete →
       handler req life w = Thrown (BadRequestError "Order is already paid") w)
  ∧ (∀ order p, order_of req w = Some order →
       Some (order_userId order) = currentUser req →
       order_status order ≠ Cancelled →
       order_status order ≠ Complete →
       payment_of req w = Some p →
       handler req life w =
       Thrown (BadRequestError "Payment already exists for this order") w)
  ∧ ((∀ order, ¬ admitted req w order) →
     ∃ e, handler req life w = Thrown e w
          ∧ gateway_calls (world_of (handler req life w)) = gateway_calls w
          ∧ payments (world_of (handler req life w)) = payments w).
Proof.
  split_and!.
  - intros Horder. rewrite guards_unfold, Horder. done.
  - intros order Horder Howner. rewrite guards_unfold, Horder.
    by rewrite bool_decide_eq_true_2.
  - intros order Horder Howner Hstatus. rewrite guards_unfold, Horder.
    rewrite bool_decide_eq_false_2 by (by intros []).
    by rewrite bool_decide_eq_true_2.
  - intros order Horder Howner Hstatus. rewrite guards_unfold, Horder.
    rewrite bool_decide_eq_false_2 by (by intros []).
    rewrite bool_decide_eq_false_2 by (by rewrite Hstatus).
    by rewrite bool_decide_eq_true_2.
  - intros order p Horder Howner Hcancelled Hcomplete Hpayment.
    rewrite guards_unfold, Horder, Hpayment.
    rewrite bool_decide_eq_false_2 by (by intros []).
    by rewrite !bool_decide_eq_false_2.
  - intros Hno. destruct (not_admitted_thrown req life w Hno) as (e & -> & _).
    by exists e.
Qed.

(** Served one after another, requests keep "at most one Payment per
    Order": a run stores at most one more Payment, and only for an order
    that had none. *)
Lemma run_keeps_one_payment_per_order req life w :
  one_payment_per_order w →
  one_payment_per_order (world_of (handler req life w)).
Proof.
  unfold one_payment_per_order. intros Hone.
  destruct (payments_after req life w) as [->|(Hnone & p & Hp & ->)]; [done|].
  rewrite fmap_app. simpl. apply NoDup_app. split_and!.
  - done.
  - intros o Hin Hin'. apply list_elem_of_singleton in Hin' as ->.
    rewrite Hp in Hin. by apply payment_of_None in Hnone.
  - apply NoDup_singleton.
Qed.

(** One step of a request in flight. *)
Local Abbreviation next := (resume stripe_answer new_ObjectId nats_accepts).

(** A request served with no other in between, by a process that lives
    through it, ends as [createChargeRouter] has it. *)
Lemma served_alone req life w :
  (4 ≤ life)%nat →
  serve stripe_answer new_ObjectId nats_accepts [0; 0; 0; 0; 0]%nat
        ([(req, Arrived)], w)
  = match handler req life w with
    | Returned resp _ w' => ([(req, Answered resp)], w')
    | Thrown e w' => ([(req, Rejected e)], w')
    | Killed w' => ([(req, Arrived)], w')
    end.
Proof.
  intros Hlife. do 4 (destruct life as [|life]; [lia|]).
  rewrite guards_unfold. unfold order_of, payment_of, charge_for, serve, turn.
  cbn [foldl fst snd lookup list_lookup insert list_insert].
  cbn [resume fst snd].
  destruct (List.find _ (orders w)) as [order|] eqn:Horder; [|done].
  destruct (bool_decide (Some _ ≠ _)) eqn:Howner; [done|].
  destruct (bool_decide (_ = Cancelled)) eqn:Hcancelled; [done|].
  destruct (bool_decide (_ = Complete)) eqn:Hcomplete; [done|].
  cbn [resume fst snd].
  destruct (List.find _ (payments w)) as [p|] eqn:Hpayment; [done|].
  cbn [resume fst snd].
  destruct (stripe_answer _) as [cid|]; reflexivity.
Qed.




(** C8.  Every call the handler places at the gateway carries the id of
    the order it found as its idempotency key; and an admitted request
    whose process is alive does place that call. *)
Theorem charge_keyed_by_order_id req life w :
  (∀ call, call ∈ gateway_calls (world_of (handler req life w)) →
     call ∈ gateway_calls w
     ∨ ∃ order, order_of req w = Some order
                ∧ idempotencyKey call = order_id order)
  ∧ (∀ order, admitted req w order → life ≠ 0%nat →
     ∃ call, gateway_calls (world_of (handler req life w))
             = gateway_calls w ++ [call]
             ∧ idempotencyKey call = order_id order).
Proof.
  split.
  - intros call. rewrite gateway_calls_after.
    destruct (order_of req w) as [order|]; [|by left].
    case_bool_decide; [|by left].
    intros [Hin|Hin%list_elem_of_singleton]%elem_of_app; [by left|right].
    exists order. by subst call.
  - intros order (Horder & Howner & Hcancelled & Hcomplete & Hpayment) Hlife.
    exists (charge_for req order). split; [|done].
    rewrite gateway_calls_after, Horder. by rewrite bool_decide_eq_true_2.
Qed.

(** C10, as the code has it.  A run that answers the request has placed
    exactly one call at the gateway, in "usd" and for the product of the
    order's price and 100 as JavaScript computes it, in double precision.
    For a price that is a whole number of dollars below 2^53 in magnitude
    this is the price in cents rounded to the nearest double, and it is the
    price in cents exactly whenever that stays below 2^53 in magnitude.  An
    admitted request that the gateway accepts is answered, provided the
    process lives through the four effects of the handler. *)
Theorem charge_amount_is_rounded_product req life w :
  (∀ resp life' w',
     handler req life w = Returned resp life' w' →
     ∃ order call,
       order_of req w = Some order
       ∧ gateway_calls w' = gateway_calls w ++ [call]
       ∧ amount call = times (order_price order) (of_Z 100)
       ∧ currency call = "usd"
       ∧ ∀ dollars,
           order_price order = of_Z dollars →
           Z.abs dollars < 2 ^ 53 →
           amount call = of_Z (dollars * 100)
           ∧ (Z.abs (dollars * 100) < 2 ^ 53 →
              exact_Z (amount call) = Some (dollars * 100)))
  ∧ (∀ order cid,
       admitted req w order →
       stripe_answer (charge_for req order) = Some cid →
       (4 ≤ life)%nat →
       ∃ resp w', handler req life w = Returned resp (life - 4) w').
Proof.
  split.
  - intros resp life' w'. rewrite guards_unfold.
    destruct (order_of req w) as [order|]; [|done].
    repeat (case_bool_decide; [done|]).
    destruct (payment_of req w); [done|].
    destruct life as [|life1]; [done|]. cbv zeta.
    destruct (stripe_answer _) as [cid|]; [|done].
    destruct life1 as [|[|[|life4]]]; try done.
    intros [= <- <- <-]. exists order, (charge_for req order).
    split_and!; try done; [by destruct (nats_accepts _)|].
    intros dollars Hprice Hdollars. cbn [charge_for amount].
    rewrite Hprice, JsNumberFacts.times_of_Z by (done || lia).
    split; [done|]. apply JsNumberFacts.exact_Z_of_Z.
  - intros order cid Hadm Hcid Hlife.
    destruct (admitted_guards req w order Hadm)
      as (Horder & Howner & Hcancelled & Hcomplete & Hpayment).
    rewrite guards_unfold, Horder, Howner, Hcancelled, Hcomplete, Hpayment.
    do 4 (destruct life as [|life]; [lia|]).
    cbv zeta. rewrite Hcid.
    replace (S (S (S (S life))) - 4)%nat with life by lia. by do 2 eexists.
Qed.

(** C4, as the code has it.  The handler never writes to the outbox.  For
    an admitted request that the gateway accepts, the Payment is saved
    first and the PaymentCreated event is handed to the bus afterwards, as
    a step of its own: a process killed between the two leaves the Payment
    stored, nothing on the bus and no outbox record; a process that lives
    through the handler answers 201 with the Payment stored, and the event
    is on the bus only if the bus took it. *)
Theorem payment_then_publish_without_outbox req life w :
  outbox (world_of (handler req life w)) = outbox w
  ∧ (∀ order cid,
       admitted req w order →
       stripe_answer (charge_for req order) = Some cid →
       let p := mkPayment (new_ObjectId (payments w)) (body_orderId req) cid in
       (life = 2%nat →
        ∃ w', handler req life w = Killed w'
              ∧ payments w' = payments w ++ [p]
              ∧ bus w' = bus w
              ∧ outbox w' = outbox w)
       ∧ ((4 ≤ life)%nat →
          ∃ w', handler req life w
                = Returned (mkResponse 201 (payment_id p)) (life - 4) w'
                ∧ payments w' = payments w ++ [p]
                ∧ bus w' = (if nats_accepts (announcement p)
                            then bus w ++ [announcement p] else bus w)
                ∧ outbox w' = outbox w)).
Proof.
  split; [apply outbox_untouched|].
  intros order cid Hadm Hcid p.
  destruct (admitted_guards req w order Hadm)
    as (Horder & Howner & Hcancelled & Hcomplete & Hpayment).
  rewrite guards_unfold, Horder, Howner, Hcancelled, Hcomplete, Hpayment.
  split.
  - intros ->. cbv zeta. rewrite Hcid. by eexists.
  - intros Hlife. do 4 (destruct life as [|life]; [lia|]).
    cbv zeta. rewrite Hcid. replace (S (S (S (S life))) - 4)%nat with life by lia.
    eexists. split; [done|]. simpl. by destruct (nats_accepts _).
Qed.

End Facts.

Import Samples.

Lemma failed_precondition_changes_nothing_witness :
  createChargeRouter gateway_up next_id bus_up (pay "o9" "alice") 4%nat shop
    = Thrown NotFoundError shop
  ∧ createChargeRouter gateway_up next_id bus_up (pay "o1" "bob") 4%nat shop
    = Thrown NotAuthorizedError shop
  ∧ createChargeRouter gateway_up next_id bus_up (pay "o2" "alice") 4%nat shop
    = Thrown (BadRequestError "Cannot pay for an cancelled order") shop
  ∧ createChargeRouter gateway_up next_id bus_up (pay "o3" "alice") 4%nat shop
    = Thrown (BadRequestError "Order is already paid") shop
  ∧ createChargeRouter gateway_up next_id bus_up (pay "o4" "alice") 4%nat shop
    = Thrown (BadRequestError "Payment already exists for this order") shop.
Proof.
  split_and!.
  - apply (failed_precondition_changes_nothing
             gateway_up next_id bus_up (pay "o9" "alice") 4%nat shop).
    reflexivity.
  - eapply (failed_precondition_changes_nothing
              gateway_up next_id bus_up (pay "o1" "bob") 4%nat shop).
    + reflexivity.
    + discriminate.
  - eapply (failed_precondition_changes_nothing
              gateway_up next_id bus_up (pay "o2" "alice") 4%nat shop);
      reflexivity.
  - eapply (failed_precondition_changes_nothing
              gateway_up next_id bus_up (pay "o3" "alice") 4%nat shop);
      reflexivity.
  - eapply (failed_precondition_changes_nothing
              gateway_up next_id bus_up (pay "o4" "alice") 4%nat shop);
      first [reflexivity | discriminate].
Defined.


Lemma charge_keyed_by_order_id_witness :
  ∃ call,
    gateway_calls (world_of (createChargeRouter gateway_up next_id bus_up
                               (pay "o1" "alice") 4%nat shop))
    = gateway_calls shop ++ [call]
    ∧ idempotencyKey call = "o1".
Proof.
  eapply (proj2 (charge_keyed_by_order_id
                   gateway_up next_id bus_up (pay "o1" "alice") 4%nat shop)
                (mkOrder "o1" "alice" Created (of_Z 20))).
  - unfold admitted. split_and!; first [reflexivity | discriminate].
  - discriminate.
Defined.

Lemma charge_amount_is_rounded_product_witness :
  ∃ order call,
    order_of (pay "o1" "alice") shop = Some order
    ∧ gateway_calls
        (with_message (mkPaymentCreated "pay_1" "o1" "ch_o1")
           (with_payment (mkPayment "pay_1" "o1" "ch_o1")
              (with_gateway_call
                 (mkChargeCall "usd" (of_Z 2000) "tok_visa" "o1") shop)))
      = gateway_calls shop ++ [call]
    ∧ amount call = times (order_price order) (of_Z 100)
    ∧ currency call = "usd"
    ∧ ∀ dollars,
        order_price order = of_Z dollars →
        Z.abs dollars < 2 ^ 53 →
        amount call = of_Z (dollars * 100)
        ∧ (Z.abs (dollars * 100) < 2 ^ 53 →
           exact_Z (amount call) = Some (dollars * 100)).
Proof.
  eapply (proj1 (charge_amount_is_rounded_product
                   gateway_up next_id bus_up (pay "o1" "alice") 4%nat shop)
                (mkResponse 201 "pay_1") 0%nat).
  reflexivity.
Defined.

(** The claim of C10 fails on the code: for an order priced at
    400000000000001 dollars the handler charges 40000000000000096 cents,
    the double nearest to the product, and not 40000000000000100. *)
Lemma large_price_not_in_cents :
  ∃ w' call,
    createChargeRouter gateway_up next_id bus_up (pay "o1" "alice") 4%nat vault
    = Returned (mkResponse 201 "pay_0") 0%nat w'
    ∧ gateway_calls w' = [call]
    ∧ exact_Z (amount call) = Some 40000000000000096
    ∧ ¬ amount_in_cents
          (mkOrder "o1" "alice" Created (of_Z 400000000000001)) call.
Proof.
  do 2 eexists. split_and!; [reflexivity..|].
  intros Hcents. specialize (Hcents 400000000000001 eq_refl).
  vm_compute in Hcents. discriminate Hcents.
Qed.

(** The claim of C4 fails on the code: a process killed right after
    [payment.save()] has stored the Payment, and the outbox holds no record
    of it. *)
Lemma payment_saved_without_outbox_record :
  ¬ outbox_atomic shop
      (world_of (createChargeRouter gateway_up next_id bus_up
                   (pay "o1" "alice") 2%nat shop)).
Proof.
  intros Hatomic.
  destruct (Hatomic (mkPayment "pay_1" "o1" "ch_o1")) as (r & Hin & _).
  - vm_compute. apply list_elem_of_In. right. left. reflexivity.
  - intros Hin%list_elem_of_singleton. discriminate Hin.
  - vm_compute in Hin. by apply elem_of_nil in Hin.
Qed.

Lemma payment_then_publish_without_outbox_witness :
  (∃ w', createChargeRouter gateway_up next_id bus_up (pay "o1" "alice") 2%nat shop
         = Killed w'
         ∧ payments w' = payments shop ++ [mkPayment "pay_1" "o1" "ch_o1"]
         ∧ bus w' = bus shop
         ∧ outbox w' = outbox shop)
  ∧ (∃ w', createChargeRouter gateway_up next_id bus_up (pay "o1" "alice") 4%nat shop
           = Returned (mkResponse 201 "pay_1") 0%nat w'
           ∧ payments w' = payments shop ++ [mkPayment "pay_1" "o1" "ch_o1"]
           ∧ bus w' = bus shop ++ [mkPaymentCreated "pay_1" "o1" "ch_o1"]
           ∧ outbox w' = outbox shop).
Proof.
  assert (Hadm : admitted (pay "o1" "alice") shop
                   (mkOrder "o1" "alice" Created (of_Z 20))).
  { unfold admitted. split_and!; first [reflexivity | discriminate]. }
  split.
  - eapply (payment_then_publish_without_outbox
              gateway_up next_id bus_up (pay "o1" "alice") 2%nat shop);
      [exact Hadm | reflexivity | reflexivity].
  - eapply (payment_then_publish_without_outbox
              gateway_up next_id bus_up (pay "o1" "alice") 4%nat shop);
      [exact Hadm | reflexivity | lia].
Defined.

End PaymentsFacts.

(** ** Versioned documents *)

Module VersionedFacts.
Import Versioned.

Section Facts.

Context {A : Type}.
Implicit Types (c : gmap string (Doc A)) (d : Doc A) (id : string).

Lemma findOne_Some id v c d :
  findOne id v c = Some d ↔ c !! id = Some d ∧ doc_version d = v.
Proof.
  unfold findOne. destruct (c !! id) as [d0|].
  - case_bool_decide as Hv; split.
    + intros [= <-]. done.
    + intros [[= <-] _]. done.
    + done.
    + intros [[= <-] Hv']. done.
  - split; [done|]. by intros [? _].
Qed.

Lemma findOne_None id v c d :
  c !! id = Some d → doc_version d ≠ v → findOne id v c = None.
Proof.
  intros Hd Hv. unfold findOne. rewrite Hd. by rewrite bool_decide_eq_false_2.
Qed.

(** An accepted write found the expected version and left the next one. *)
Lemma save_Some id expected (body : A) c c' :
  save id expected body c = Some c' →
  (∃ d, c !! id = Some d ∧ doc_version d = expected)
  ∧ c' = <[id := mkDoc body (expected + 1)]> c.
Proof.
  unfold save. destruct (findOne id expected c) as [d|] eqn:Hfind; [|done].
  intros [= <-]. apply findOne_Some in Hfind as [Hd Hv].
  split; [by exists d|done].
Qed.

Lemma save_match id (body : A) c d :
  c !! id = Some d →
  save id (doc_version d) body c
  = Some (<[id := mkDoc body (doc_version d + 1)]> c).
Proof.
  intros Hd. unfold save.
  by rewrite (proj2 (findOne_Some id (doc_version d) c d)).
Qed.

Lemma no_regress_refl c : no_regress c c.
Proof. intros id d Hd. exists d. split; [done|lia]. Qed.

Lemma no_regress_trans c1 c2 c3 :
  no_regress c1 c2 → no_regress c2 c3 → no_regress c1 c3.
Proof.
  intros H12 H23 id d Hd.
  destruct (H12 id d Hd) as (d2 & Hd2 & Hle2).
  destruct (H23 id d2 Hd2) as (d3 & Hd3 & Hle3).
  exists d3. split; [done|lia].
Qed.

Lemma bumps_by_one_refl c : bumps_by_one c c.
Proof. intros id d d' Hd Hd'. left. congruence. Qed.

Lemma save_no_regress id expected (body : A) c c' :
  save id expected body c = Some c' → no_regress c c'.
Proof.
  intros ((d0 & Hd0 & Hv) & ->)%save_Some id' d Hd.
  destruct (decide (id = id')) as [<-|Hne].
  - rewrite lookup_insert_eq. eexists. split; [done|].
    simpl. rewrite Hd0 in Hd. injection Hd as <-. lia.
  - rewrite lookup_insert_ne by done. exists d. split; [done|lia].
Qed.

Lemma save_bumps_by_one id expected (body : A) c c' :
  save id expected body c = Some c' → bumps_by_one c c'.
Proof.
  intros ((d0 & Hd0 & Hv) & ->)%save_Some id' d d' Hd Hd'.
  destruct (decide (id = id')) as [<-|Hne].
  - rewrite lookup_insert_eq in Hd'. injection Hd' as <-.
    right. simpl. congruence.
  - rewrite lookup_insert_ne in Hd' by done. left. congruence.
Qed.

End Facts.

End VersionedFacts.

(** ** The listeners of the orders service *)

Module OrdersFacts.
Import Common Versioned Machines Orders VersionedFacts.

(** What one message can do to the two collections. *)
Lemma onMessage_step m w :
  (no_regress (tickets w) (tickets (onMessage m w).2)
   ∧ bumps_by_one (tickets w) (tickets (onMessage m w).2))
  ∧ (no_regress (orders w) (orders (onMessage m w).2)
     ∧ bumps_by_one (orders w) (orders (onMessage m w).2)).
Proof.
  pose proof (@no_regress_refl Ticket (tickets w)) as Ht.
  pose proof (@bumps_by_one_refl Ticket (tickets w)) as Ht'.
  pose proof (@no_regress_refl Order (orders w)) as Ho.
  pose proof (@bumps_by_one_refl Order (orders w)) as Ho'.
  destruct m as [data|data|data]; simpl.
  - unfold TicketUpdatedListener_onMessage, TicketUpdatedListener_apply.
    destruct (findOne _ _ _) as [ticket|]; [|done].
    destruct (save _ _ _ _) as [tickets'|] eqn:Hsave; [|done].
    simpl. split; [|done]. split.
    + by eapply save_no_regress.
    + by eapply save_bumps_by_one.
  - unfold ExpirationCompleteListener_onMessage,
      ExpirationCompleteListener_guard, ExpirationCompleteListener_cancel.
    destruct (orders w !! _) as [order|]; [|done].
    case_bool_decide; [done|].
    destruct (Order_transition _ _) as [status'|]; [|done].
    destruct (save _ _ _ _) as [orders'|] eqn:Hsave; [|done].
    simpl. split; [done|]. split.
    + by eapply save_no_regress.
    + by eapply save_bumps_by_one.
  - unfold PaymentCreatedListener_onMessage.
    destruct (orders w !! _) as [order|]; [|done].
    destruct (Order_transition _ _) as [status'|]; [|done].
    destruct (save _ _ _ _) as [orders'|] eqn:Hsave; [|done].
    simpl. split; [done|]. split.
    + by eapply save_no_regress.
    + by eapply save_bumps_by_one.
Qed.

Lemma run_app ms1 ms2 w : run (ms1 ++ ms2) w = run ms2 (run ms1 w).
Proof. unfold run. apply foldl_app. Qed.

Lemma run_no_regress ms w :
  no_regress (tickets w) (tickets (run ms w))
  ∧ no_regress (orders w) (orders (run ms w)).
Proof.
  revert w. induction ms as [|m ms IH]; intros w.
  - split; apply no_regress_refl.
  - change (run (m :: ms) w) with (run ms (onMessage m w).2).
    destruct (onMessage_step m w) as [[Ht _] [Ho _]].
    destruct (IH (onMessage m w).2) as [Ht' Ho'].
    split; eapply no_regress_trans; eauto.
Qed.

(** The worlds the subscription goes through are those of [run]. *)
Lemma deliveries_world ms s : world (deliveries ms s) = run ms (world s).
Proof.
  revert s. induction ms as [|m ms IH]; intros s; [done|].
  unfold deliveries, run in *. simpl. rewrite IH. f_equal.
  unfold deliver. by destruct (onMessage m (world s)) as [[|reason] w'].
Qed.

(** C1.  Take any world of the orders service and any sequence of
    deliveries, duplicates and reorderings included.  Whatever was
    delivered earlier and whatever is delivered later, every ticket replica
    and every order seen after the earlier deliveries is still there after
    the later ones, at a version that is not smaller; and a single delivery
    leaves each document as it was or moves it on by exactly one
    version. *)
Theorem versions_never_regress (w : World) (earlier later : list Message) :
  (no_regress (tickets (run earlier w)) (tickets (run (earlier ++ later) w))
   ∧ no_regress (orders (run earlier w)) (orders (run (earlier ++ later) w)))
  ∧ (∀ m,
       bumps_by_one (tickets (run earlier w)) (tickets (run (earlier ++ [m]) w))
       ∧ bumps_by_one (orders (run earlier w)) (orders (run (earlier ++ [m]) w))).
Proof.
  split.
  - rewrite run_app. apply run_no_regress.
  - intros m. rewrite run_app. simpl.
    destruct (onMessage_step m (run earlier w)) as [[_ Ht] [_ Ho]]. done.
Qed.

(** A version that does not match: the listener throws and touches
    nothing. *)
Lemma version_mismatch_throws data w ticket :
  tickets w !! tu_id data = Some ticket →
  doc_version ticket ≠ tu_version data - 1 →
  TicketUpdatedListener_onMessage data w = (Throw "Ticket not found", w).
Proof.
  intros Hticket Hne. unfold TicketUpdatedListener_onMessage.
  by rewrite (findOne_None _ _ _ ticket).
Qed.

(** A version that matches: the update is written and acknowledged. *)
Lemma version_match_applies data w ticket :
  tickets w !! tu_id data = Some ticket →
  doc_version ticket = tu_version data - 1 →
  TicketUpdatedListener_onMessage data w
  = (Ack,
     mkWorld
       (<[tu_id data :=
            mkDoc (mkTicket (tu_title data) (tu_price data) (tu_orderId data))
                  (tu_version data)]> (tickets w))
       (orders w) (emitted w)).
Proof.
  intros Hticket Hv.
  unfold TicketUpdatedListener_onMessage, TicketUpdatedListener_apply.
  rewrite (proj2 (findOne_Some _ _ _ ticket)) by done.
  rewrite (save_match _ _ _ ticket) by done.
  do 4 f_equal. lia.
Qed.

(** A thrown message changes neither the world nor the pool. *)
Lemma deliver_thrown m s reason :
  onMessage m (world s) = (Throw reason, world s) → deliver m s = s.
Proof. unfold deliver. intros ->. by destruct s. Qed.

Lemma deliveries_thrown m s reason n :
  onMessage m (world s) = (Throw reason, world s) →
  deliveries (replicate n m) s = s.
Proof.
  intros Hthrow. induction n as [|n IH]; [done|].
  unfold deliveries in *. simpl. by rewrite (deliver_thrown _ _ reason).
Qed.

(** C2, as the code has it.  An event whose version, less one, is below
    the version of the local replica leaves the world as it was, but the
    listener does not acknowledge it: it throws "Ticket not found", the
    message stays in the redelivery pool, and so it goes every time the
    message is delivered again. *)
Theorem stale_event_thrown_unchanged data w ticket :
  tickets w !! tu_id data = Some ticket →
  tu_version data - 1 < doc_version ticket →
  TicketUpdatedListener_onMessage data w = (Throw "Ticket not found", w)
  ∧ ∀ pool n,
      deliveries (replicate n (TicketUpdated data)) (mkSubscription w pool)
      = mkSubscription w pool.
Proof.
  intros Hticket Hstale.
  assert (TicketUpdatedListener_onMessage data w = (Throw "Ticket not found", w))
    as Hthrow by (apply (version_mismatch_throws _ _ ticket); [done|lia]).
  split; [done|]. intros pool n.
  by apply (deliveries_thrown _ _ "Ticket not found").
Qed.

(** C3.  An event whose version, less one, is above the version of the
    local replica is not applied and not acknowledged: the listener throws,
    the world is as it was and the message is still in the redelivery pool.
    Once the replica has reached the version just below the event's, a
    delivery of the same message writes it and acknowledges it. *)
Theorem early_event_held_back data w ticket :
  tickets w !! tu_id data = Some ticket →
  tu_version data - 1 > doc_version ticket →
  TicketUpdatedListener_onMessage data w = (Throw "Ticket not found", w)
  ∧ (∀ pool,
       deliver (TicketUpdated data) (mkSubscription w pool)
       = mkSubscription w pool)
  ∧ (∀ w' ticket',
       tickets w' !! tu_id data = Some ticket' →
       doc_version ticket' = tu_version data - 1 →
       ∃ w'', TicketUpdatedListener_onMessage data w' = (Ack, w'')
              ∧ tickets w'' !! tu_id data
                = Some (mkDoc (mkTicket (tu_title data) (tu_price data)
                                        (tu_orderId data))
                              (tu_version data))
              ∧ ∀ pool,
                  TicketUpdated data
                  ∉ pending (deliver (TicketUpdated data)
                                     (mkSubscription w' pool))).
Proof.
  intros Hticket Hearly.
  assert (TicketUpdatedListener_onMessage data w = (Throw "Ticket not found", w))
    as Hthrow by (apply (version_mismatch_throws _ _ ticket); [done|lia]).
  split_and!; [done| |].
  - intros pool. by apply (deliver_thrown _ _ "Ticket not found").
  - intros w' ticket' Hticket' Hnext.
    pose proof (version_match_applies data w' ticket' Hticket' Hnext) as Hack.
    eexists. split_and!; [exact Hack| |].
    + simpl. apply lookup_insert_eq.
    + intros pool. unfold deliver. simpl. rewrite Hack. simpl.
      intros Hin%list_elem_of_In%List.filter_In. destruct Hin as [_ Hin].
      by apply bool_decide_eq_true in Hin.
Qed.

(** A terminal order survives any one message. *)
Lemma terminal_order_step m w id order :
  orders w !! id = Some order →
  terminal (order_status (doc_body order)) = true →
  (targets m = Some id → onMessage m w = (Ack, w))
  ∧ orders (onMessage m w).2 !! id = Some order.
Proof.
  intros Horder Hterminal.
  assert (∀ ev, Order_transition (order_status (doc_body order)) ev = None)
    as Hrejected by (intros ev; unfold Order_transition; by rewrite Hterminal).
  destruct m as [data|data|data]; simpl.
  - split; [done|].
    unfold TicketUpdatedListener_onMessage, TicketUpdatedListener_apply.
    destruct (findOne _ _ _); [|done]. by destruct (save _ _ _ _).
  - unfold ExpirationCompleteListener_onMessage,
      ExpirationCompleteListener_guard, ExpirationCompleteListener_cancel.
    destruct (decide (ec_orderId data = id)) as [->|Hother].
    + rewrite Horder, Hrejected. by case_bool_decide.
    + split; [congruence|].
      destruct (orders w !! ec_orderId data) as [other|]; [|done].
      case_bool_decide; [done|].
      destruct (Order_transition _ _); [|done].
      destruct (save _ _ _ _) as [orders'|] eqn:Hsave; [|done].
      apply save_Some in Hsave as [_ ->]. simpl.
      by rewrite lookup_insert_ne.
  - unfold PaymentCreatedListener_onMessage.
    destruct (decide (pc_orderId data = id)) as [->|Hother].
    + by rewrite Horder, Hrejected.
    + split; [congruence|].
      destruct (orders w !! pc_orderId data) as [other|]; [|done].
      destruct (Order_transition _ _); [|done].
      destruct (save _ _ _ _) as [orders'|] eqn:Hsave; [|done].
      apply save_Some in Hsave as [_ ->]. simpl.
      by rewrite lookup_insert_ne.
Qed.

(** C6.  An order that is Complete or Cancelled: every message that
    targets it (a PaymentCreated, an ExpirationComplete) is acknowledged
    and leaves the world as it was, so no error is raised; and after any
    sequence of deliveries the order is the same document, with the same
    status. *)
Theorem terminal_order_untouched w id order :
  orders w !! id = Some order →
  terminal (order_status (doc_body order)) = true →
  (∀ m, targets m = Some id → onMessage m w = (Ack, w))
  ∧ (∀ ms, orders (run ms w) !! id = Some order).
Proof.
  intros Horder Hterminal. split.
  - intros m. by apply (terminal_order_step m w id order).
  - intros ms. revert w Horder. induction ms as [|m ms IH]; intros w Horder.
    + done.
    + change (run (m :: ms) w) with (run ms (onMessage m w).2).
      apply IH. by apply (terminal_order_step m w id order).
Qed.

Import Samples.

(** The claim of C2 fails on the code: the update to version 2 is applied
    and acknowledged the first time; delivered again it is stale, and the
    listener throws instead of acknowledging. *)
Lemma applied_event_redelivered_not_acknowledged :
  (TicketUpdatedListener_onMessage (update 2) desk).1 = Ack
  ∧ (∃ ticket,
       tickets (TicketUpdatedListener_onMessage (update 2) desk).2 !! "t1"
       = Some ticket
       ∧ tu_version (update 2) - 1 < doc_version ticket)
  ∧ (TicketUpdatedListener_onMessage (update 2)
       (TicketUpdatedListener_onMessage (update 2) desk).2).1
    = Throw "Ticket not found".
Proof.
  split_and!.
  - reflexivity.
  - eexists. split; [reflexivity|]. simpl. lia.
  - reflexivity.
Qed.

Lemma stale_event_thrown_unchanged_witness :
  TicketUpdatedListener_onMessage (update 1) desk = (Throw "Ticket not found", desk)
  ∧ ∀ pool n,
      deliveries (replicate n (TicketUpdated (update 1))) (mkSubscription desk pool)
      = mkSubscription desk pool.
Proof.
  apply (stale_event_thrown_unchanged (update 1) desk
           (mkDoc (mkTicket "concert" 20 None) 1)).
  - reflexivity.
  - simpl. lia.
Defined.

Lemma early_event_held_back_witness :
  TicketUpdatedListener_onMessage (update 3) desk = (Throw "Ticket not found", desk)
  ∧ deliver (TicketUpdated (update 3))
      (mkSubscription desk [TicketUpdated (update 3); TicketUpdated (update 2)])
    = mkSubscription desk [TicketUpdated (update 3); TicketUpdated (update 2)].
Proof.
  destruct (early_event_held_back (update 3) desk
              (mkDoc (mkTicket "concert" 20 None) 1)) as (Hthrow & Hpool & _).
  - reflexivity.
  - simpl. lia.
  - split; [exact Hthrow | apply Hpool].
Defined.

Lemma terminal_order_untouched_witness :
  onMessage (PaymentCreated (mkPaymentCreated "pay_1" "o1" "ch_o1")) desk
  = (Ack, desk)
  ∧ onMessage (ExpirationComplete (mkExpirationComplete "o1")) desk
    = (Ack, desk)
  ∧ orders (run [ExpirationComplete (mkExpirationComplete "o2");
                 PaymentCreated (mkPaymentCreated "pay_1" "o1" "ch_o1")] desk)
      !! "o1"
    = Some (mkDoc (mkOrder "alice" "t1" Common.Cancelled 900) 1).
Proof.
  destruct (terminal_order_untouched desk "o1"
              (mkDoc (mkOrder "alice" "t1" Common.Cancelled 900) 1))
    as (Hack & Hrun).
  - reflexivity.
  - reflexivity.
  - split_and!; [by apply Hack | by apply Hack | apply Hrun].
Defined.

(** The replica follows the stream: version 2 on top of version 1 is
    written, version 3 then follows, and a second copy of version 2 changes
    nothing. *)
Example replica_follows_the_stream :
  doc_version <$>
    tickets (run [TicketUpdated (update 3); TicketUpdated (update 2);
                  TicketUpdated (update 2); TicketUpdated (update 3);
                  TicketUpdated (update 2)] desk) !! "t1"
  = Some 3.
Proof. reflexivity. Qed.

(** An open order is cancelled by the expiration, once, with the event
    carrying the version after the write. *)
Example expiration_cancels_open_order :
  (order_status ∘ doc_body <$>
     orders (run [ExpirationComplete (mkExpirationComplete "o2");
                  ExpirationComplete (mkExpirationComplete "o2")] desk) !! "o2"
   = Some Common.Cancelled)
  ∧ emitted (run [ExpirationComplete (mkExpirationComplete "o2");
                  ExpirationComplete (mkExpirationComplete "o2")] desk)
    = [mkOrderCancelled "o2" 1 "t2"].
Proof. split; reflexivity. Qed.

End OrdersFacts.

(** ** The ticket machine *)

Module MachinesFacts.
Import Machines.

(** A reserved ticket is released by the cancellation of its own order
    and by nothing else. *)
Lemma reserved_step a ev :
  ev ≠ OrderCancelled a → Ticket_apply (reserved a) ev = reserved a.
Proof.
  intros Hev. unfold Ticket_apply.
  destruct ev as [o|b]; simpl; [done|].
  case_bool_decide; [congruence|done].
Qed.

(** C5.  A ticket reserved for order [a] rejects the cancellation of any
    other order [b] and stays reserved for [a]; and however many events
    it is given, as long as none of them is the cancellation of [a] itself
    it never becomes available. *)
Theorem mismatched_cancellation_rejected (a b : string) :
  a ≠ b →
  Ticket_transition (reserved a) (OrderCancelled b) = None
  ∧ Ticket_apply (reserved a) (OrderCancelled b) = reserved a
  ∧ ∀ evs, Forall (λ ev, ev ≠ OrderCancelled a) evs →
           Ticket_run (reserved a) evs = reserved a.
Proof.
  intros Hab. split_and!.
  - simpl. by rewrite bool_decide_eq_false_2.
  - apply reserved_step. congruence.
  - intros evs Hevs. unfold Ticket_run.
    induction Hevs as [|ev evs Hev _ IH]; [done|].
    simpl. by rewrite reserved_step.
Qed.

Lemma mismatched_cancellation_rejected_witness :
  Ticket_transition (reserved "o1") (OrderCancelled "o2") = None
  ∧ Ticket_apply (reserved "o1") (OrderCancelled "o2") = reserved "o1"
  ∧ Ticket_run (reserved "o1")
      [OrderCancelled "o2"; OrderCreated "o3"; OrderCancelled "o2"]
    = reserved "o1".
Proof.
  destruct (mismatched_cancellation_rejected "o1" "o2") as (Hnone & Hkept & Hrun).
  - discriminate.
  - split_and!; [exact Hnone | exact Hkept |].
    apply Hrun. repeat constructor; discriminate.
Defined.

End MachinesFacts.

(** ** Service start-up *)

Module StartupFacts.
Import Startup.

(** When [process.env[n]] is truthy. *)
Lemma unset_own (env : gmap string string) (n : string) :
  unset env n = false
  ↔ (∃ v, env !! n = Some v ∧ v ≠ "") ∨ (env !! n = None ∧ n ∈ Object_prototype).
Proof.
  unfold unset. destruct (env !! n) as [v|].
  - rewrite bool_decide_eq_false. split.
    + intros Hv. left. by exists v.
    + intros [(v' & [= <-] & Hv)|[[=] _]]. done.
  - rewrite bool_decide_eq_false. split.
    + intros Hn. right. split; [done|].
      by destruct (decide (n ∈ Object_prototype)).
    + intros [(v & [=] & _)|[_ Hn]] Hnot. done.
Qed.

(** X1.  [assertEnv] returns exactly when every name it is given is either
    set to a non-empty value or, while unset, the name of a member every
    object inherits (such as "toString"), for which [process.env[n]] is not
    [undefined]; a variable set to the empty string counts as missing.  For
    names that are not inherited, as are all the names the services pass,
    it returns exactly when every one of them is set to a non-empty
    value. *)
Theorem assertEnv_returns_iff (env : gmap string string) (names : list string) :
  (assertEnv env names = Returns
   ↔ Forall (λ n, (∃ v, env !! n = Some v ∧ v ≠ "")
                  ∨ (env !! n = None ∧ n ∈ Object_prototype)) names)
  ∧ (Forall (λ n, n ∉ Object_prototype) names →
     (assertEnv env names = Returns
      ↔ Forall (λ n, ∃ v, env !! n = Some v ∧ v ≠ "") names)).
Proof.
  assert (Hiff : assertEnv env names = Returns
                 ↔ Forall (λ n, unset env n = false) names).
  { unfold assertEnv. case_bool_decide as Hmissing; split; try done.
    - intros _. apply Forall_forall. intros n Hn.
      destruct (unset env n) eqn:Hunset; [|done].
      assert (In n (List.filter (unset env) names)) as Hin
        by (apply List.filter_In; split; [by apply list_elem_of_In|done]).
      rewrite Hmissing in Hin. destruct Hin.
    - intros Hall. destruct Hmissing.
      induction Hall as [|n names Hn _ IH]; [done|].
      simpl. by rewrite Hn. }
  split.
  - rewrite Hiff. apply Forall_iff. intros n. apply unset_own.
  - intros Hnames. rewrite Hiff. rewrite !Forall_forall. split.
    + intros Hall n Hn.
      destruct (proj1 (unset_own env n) (Hall n Hn)) as [Hset|[_ Hin]]; [done|].
      by destruct (proj1 (Forall_forall _ _) Hnames n Hn).
    + intros Hall n Hn. apply unset_own. left. by apply Hall.
Qed.

Lemma assertEnv_returns_iff_witness :
  assertEnv MoreSamples.pod_env required = Returns
  ↔ Forall (λ n, ∃ v, MoreSamples.pod_env !! n = Some v ∧ v ≠ "") required.
Proof.
  apply (proj2 (assertEnv_returns_iff MoreSamples.pod_env required)).
  repeat constructor; apply (bool_decide_unpack _); vm_compute; exact I.
Defined.

Lemma attempts_app tr1 tr2 : attempts (tr1 ++ tr2) = attempts tr1 ++ attempts tr2.
Proof. unfold attempts. apply omap_app. Qed.

Lemma slept_app tr1 tr2 : slept (tr1 ++ tr2) = slept tr1 + slept tr2.
Proof.
  induction tr1 as [|[t|ms] tr1 IH]; simpl; [done|done|].
  change (foldr _ 0 (tr1 ++ tr2)) with (slept (tr1 ++ tr2)).
  change (foldr _ 0 tr1) with (slept tr1). lia.
Qed.

Lemma slept_sleep ms tr : slept (Sleep ms :: tr) = ms + slept tr.
Proof. reflexivity. Qed.

Lemma slept_attempt t tr : slept (Attempt t :: tr) = slept tr.
Proof. reflexivity. Qed.

Lemma mongo_backoff_S uri i n :
  mongo_backoff uri i (S n)
  = Attempt uri :: Sleep (Z.min 5000 (Z.of_nat i * 500))
    :: mongo_backoff uri (S i) n.
Proof. reflexivity. Qed.

Lemma mongo_backoff_attempts uri i n :
  attempts (mongo_backoff uri i n) = replicate n uri.
Proof.
  revert i. induction n as [|n IH]; intros i; [done|].
  simpl. f_equal. apply IH.
Qed.

Lemma mongo_backoff_slept uri i n : 0 ≤ slept (mongo_backoff uri i n).
Proof.
  revert i. induction n as [|n IH]; intros i; [done|].
  rewrite mongo_backoff_S, slept_attempt, slept_sleep.
  specialize (IH (S i)). lia.
Qed.

(** Failed rounds come first. *)
Lemma connectMongo_from_failed connects uri remaining i n :
  (∀ j, i ≤ j < i + n → connects j = false)%nat →
  (n ≤ remaining)%nat →
  connectMongo_from connects uri remaining i
  = ((connectMongo_from connects uri (remaining - n) (i + n)).1,
     mongo_backoff uri i n
     ++ (connectMongo_from connects uri (remaining - n) (i + n)).2).
Proof.
  revert remaining i. induction n as [|n IH]; intros remaining i Hfail Hn.
  - rewrite Nat.sub_0_r, Nat.add_0_r. simpl. by destruct (connectMongo_from _ _ _ _).
  - destruct remaining as [|remaining]; [lia|].
    simpl. rewrite Hfail by lia.
    rewrite (IH remaining (S i)) by (try lia; intros j Hj; apply Hfail; lia).
    replace (S i + n)%nat with (i + S n)%nat by lia. done.
Qed.

(** X2.  [connectMongo] returns at the first attempt that succeeds: if
    attempt [k], one of the twenty, is the first to resolve, the routine
    has called [mongoose.connect] exactly [k] times and has slept
    min(5000, 500 i) milliseconds after each failed attempt [i] and not
    otherwise. *)
Theorem connectMongo_first_success connects uri (k : nat) :
  (1 ≤ k ≤ 20)%nat →
  connects k = true →
  (∀ j, 1 ≤ j < k → connects j = false)%nat →
  connectMongo connects uri
  = (Returns,
     flat_map (λ j, [Attempt uri; Sleep (Z.min 5000 (Z.of_nat j * 500))])
              (seq 1 (k - 1))
     ++ [Attempt uri])
  ∧ length (attempts (connectMongo connects uri).2) = k.
Proof.
  intros Hk Hok Hfail.
  assert (connectMongo connects uri
          = (Returns, mongo_backoff uri 1 (k - 1) ++ [Attempt uri])) as Hrun.
  { unfold connectMongo.
    rewrite (connectMongo_from_failed connects uri 20 1 (k - 1))
      by (try lia; intros j Hj; apply Hfail; lia).
    replace (1 + (k - 1))%nat with k by lia.
    destruct (20 - (k - 1))%nat as [|remaining] eqn:Hremaining; [lia|].
    simpl. by rewrite Hok. }
  split; [exact Hrun|].
  rewrite Hrun. simpl. rewrite attempts_app, mongo_backoff_attempts.
  rewrite length_app, length_replicate. simpl. lia.
Qed.

(** X3.  When all twenty attempts fail, [connectMongo] throws "Mongo
    connection failed after retries", after twenty calls and 77.5 seconds
    of sleep: it sleeps after the last failed attempt too, before it gives
    up. *)
Theorem connectMongo_gives_up connects uri :
  (∀ j, 1 ≤ j ≤ 20 → connects j = false)%nat →
  (connectMongo connects uri).1 = Throws "Mongo connection failed after retries"
  ∧ attempts (connectMongo connects uri).2 = replicate 20 uri
  ∧ slept (connectMongo connects uri).2 = 77500
  ∧ last (connectMongo connects uri).2 = Some (Sleep 5000).
Proof.
  intros Hfail. unfold connectMongo.
  rewrite (connectMongo_from_failed connects uri 20 1 20)
    by (try lia; intros j Hj; apply Hfail; lia).
  simpl. split_and!; try reflexivity.
Qed.

(** The time slept never exceeds that of the run in which every attempt
    fails. *)
Lemma connectMongo_from_bounds connects uri remaining i :
  (length (attempts (connectMongo_from connects uri remaining i).2) ≤ remaining)%nat
  ∧ 0 ≤ slept (connectMongo_from connects uri remaining i).2
      ≤ slept (mongo_backoff uri i remaining).
Proof.
  revert i. induction remaining as [|remaining IH]; intros i; [done|].
  rewrite mongo_backoff_S, slept_attempt, slept_sleep.
  simpl. destruct (connects i).
  - simpl. pose proof (mongo_backoff_slept uri (S i) remaining). lia.
  - cbn [fst snd]. rewrite slept_attempt, slept_sleep.
    destruct (IH (S i)) as [Hlen Hslept]. simpl. lia.
Qed.

Lemma connectMongo_from_returns connects uri remaining i :
  (connectMongo_from connects uri remaining i).1 = Returns
  ↔ ∃ k, (i ≤ k < i + remaining)%nat ∧ connects k = true.
Proof.
  revert i. induction remaining as [|remaining IH]; intros i; simpl.
  - split; [done|]. intros (k & Hk & _). lia.
  - destruct (connects i) eqn:Hi; simpl.
    + split; [|done]. intros _. exists i. split; [lia|done].
    + rewrite IH. split; intros (k & Hk & Hok).
      * exists k. split; [lia|done].
      * exists k. split; [|done].
        destruct (decide (k = i)) as [->|]; [congruence|lia].
Qed.

Lemma connectMongo_from_outcome connects uri remaining i :
  (connectMongo_from connects uri remaining i).1 = Returns
  ∨ (connectMongo_from connects uri remaining i).1
    = Throws "Mongo connection failed after retries".
Proof.
  revert i. induction remaining as [|remaining IH]; intros i; simpl.
  - by right.
  - destruct (connects i); simpl; [by left|apply IH].
Qed.

(** X4.  Whatever the database does, [connectMongo] calls
    [mongoose.connect] at most twenty times and sleeps at most 77.5
    seconds in all; it returns exactly when one of the twenty attempts
    succeeds, and throws otherwise. *)
Theorem connectMongo_bounded connects uri :
  (length (attempts (connectMongo connects uri).2) ≤ 20)%nat
  ∧ 0 ≤ slept (connectMongo connects uri).2 ≤ 77500
  ∧ ((connectMongo connects uri).1 = Returns
     ↔ ∃ k, (1 ≤ k ≤ 20)%nat ∧ connects k = true)
  ∧ ((connectMongo connects uri).1 = Returns
     ∨ (connectMongo connects uri).1
       = Throws "Mongo connection failed after retries").
Proof.
  unfold connectMongo.
  destruct (connectMongo_from_bounds connects uri 20 1) as [Hlen Hslept].
  assert (slept (mongo_backoff uri 1 20) = 77500) as Hall by (by vm_compute).
  split; [exact Hlen|]. split; [lia|]. split.
  - etrans; [apply connectMongo_from_returns|].
    split; intros (k & Hk & Hok); exists k; (split; [lia|exact Hok]).
  - apply connectMongo_from_outcome.
Qed.

Lemma connectMongo_first_success_witness :
  connectMongo (λ i, Nat.leb 3 i) "mongodb://payments-mongo-srv:27017/payments"
  = (Returns,
     [Attempt "mongodb://payments-mongo-srv:27017/payments"; Sleep 500;
      Attempt "mongodb://payments-mongo-srv:27017/payments"; Sleep 1000;
      Attempt "mongodb://payments-mongo-srv:27017/payments"]).
Proof.
  apply (connectMongo_first_success
           (λ i, Nat.leb 3 i) "mongodb://payments-mongo-srv:27017/payments" 3).
  - lia.
  - reflexivity.
  - intros j Hj. apply Nat.leb_gt. lia.
Defined.

Lemma connectMongo_gives_up_witness :
  slept (connectMongo (λ _, false) "mongodb://down").2 = 77500
  ∧ last (connectMongo (λ _, false) "mongodb://down").2 = Some (Sleep 5000).
Proof.
  destruct (connectMongo_gives_up (λ _, false) "mongodb://down")
    as (_ & _ & Hslept & Hlast).
  - reflexivity.
  - split; [exact Hslept | exact Hlast].
Defined.

Section NatsFacts.

Variable connect : nat -> string -> option string.
Variable stamp : nat -> string.
Variable noise : nat -> string.
Variable baseClientId : string.

Local Abbreviation idOf := (clientId_of stamp noise baseClientId).
Local Abbreviation loop := (natsConnect_from connect stamp noise baseClientId).

Local Abbreviation retried := (Startup.retried connect stamp noise baseClientId).
Local Abbreviation nats_backoff := (Startup.nats_backoff stamp noise baseClientId).

Lemma nats_backoff_S i n :
  nats_backoff i (S n)
  = Attempt (idOf i) :: Sleep (Z.min 5000 (Z.of_nat i * 800))
    :: nats_backoff (S i) n.
Proof. reflexivity. Qed.

Lemma nats_backoff_attempts i n :
  attempts (nats_backoff i n) = idOf <$> seq i n.
Proof.
  revert i. induction n as [|n IH]; intros i; [done|].
  rewrite nats_backoff_S. simpl. f_equal. apply IH.
Qed.

Lemma nats_backoff_slept i n : 0 ≤ slept (nats_backoff i n).
Proof.
  revert i. induction n as [|n IH]; intros i; [done|].
  rewrite nats_backoff_S, slept_attempt, slept_sleep.
  specialize (IH (S i)). lia.
Qed.

Lemma natsConnect_from_retried remaining i n :
  (∀ j, (i ≤ j < i + n)%nat → retried j) →
  (n ≤ remaining)%nat →
  loop remaining i
  = ((loop (remaining - n) (i + n)).1,
     nats_backoff i n ++ (loop (remaining - n) (i + n)).2).
Proof.
  revert remaining i. induction n as [|n IH]; intros remaining i Hretried Hn.
  - rewrite Nat.sub_0_r, Nat.add_0_r. simpl. by destruct (loop _ _).
  - destruct remaining as [|remaining]; [lia|].
    destruct (Hretried i) as (msg & Hmsg & Hwhy); [lia|].
    simpl. rewrite Hmsg.
    assert (negb (includes "clientID already registered" msg)
            && bool_decide (3 ≤ i)%nat = false) as ->.
    { destruct Hwhy as [->|Hi]; [done|].
      rewrite bool_decide_eq_false_2 by lia. apply andb_false_r. }
    rewrite (IH remaining (S i)) by (try lia; intros j Hj; apply Hretried; lia).
    replace (S i + n)%nat with (i + S n)%nat by lia. done.
Qed.

(** X5.  A refusal that does not mention "clientID already registered" is
    retried on the first and on the second attempt and is fatal from the
    third on: if attempt [a] (3 to 8) is the first to be refused in that
    way after its predecessors were retried, the loop rethrows that very
    error, having tried [a] times and slept min(5000, 800 j) milliseconds
    after each earlier attempt [j]. *)
Theorem natsConnect_other_error_fatal (a : nat) (msg : string) :
  (3 ≤ a ≤ 8)%nat →
  (∀ j, (1 ≤ j < a)%nat → retried j) →
  connect a (idOf a) = Some msg →
  includes "clientID already registered" msg = false →
  natsConnect connect stamp noise baseClientId
  = (Failed msg,
     flat_map (λ j, [Attempt (idOf j); Sleep (Z.min 5000 (Z.of_nat j * 800))])
              (seq 1 (a - 1))
     ++ [Attempt (idOf a)]).
Proof.
  intros Ha Hretried Hmsg Hother. unfold natsConnect.
  rewrite (natsConnect_from_retried 8 1 (a - 1))
    by (try lia; intros j Hj; apply Hretried; lia).
  replace (1 + (a - 1))%nat with a by lia.
  destruct (8 - (a - 1))%nat as [|remaining] eqn:Hremaining; [lia|].
  simpl. rewrite Hmsg, Hother. simpl.
  by rewrite bool_decide_eq_true_2 by lia.
Qed.

(** X6.  When all eight attempts are refused and retried, the routine
    throws "Failed to connect to NATS after retries." after eight attempts
    and 26.8 seconds of sleep. *)
Theorem natsConnect_gives_up :
  (∀ j, (1 ≤ j ≤ 8)%nat → retried j) →
  (natsConnect connect stamp noise baseClientId).1
  = Failed "Failed to connect to NATS after retries."
  ∧ attempts (natsConnect connect stamp noise baseClientId).2
    = idOf <$> seq 1 8
  ∧ slept (natsConnect connect stamp noise baseClientId).2 = 26800.
Proof.
  intros Hretried. unfold natsConnect.
  rewrite (natsConnect_from_retried 8 1 8)
    by (try lia; intros j Hj; apply Hretried; lia).
  cbn [fst snd Nat.sub Nat.add loop natsConnect_from].
  rewrite app_nil_r. split_and!; [done|apply nats_backoff_attempts|].
  by vm_compute.
Qed.

Lemma append_empty (s : string) : s +:+ "" = s.
Proof.
  induction s as [|c s IH]; [done|].
  transitivity (String c (s +:+ "")); [reflexivity|by rewrite IH].
Qed.

Lemma idOf_first : idOf 1 = baseClientId.
Proof.
  unfold clientId_of. rewrite bool_decide_eq_true_2 by done. apply append_empty.
Qed.

Lemma idOf_later j : (2 ≤ j)%nat → idOf j ≠ baseClientId.
Proof.
  intros Hj. unfold clientId_of. rewrite bool_decide_eq_false_2 by lia.
  intros Heq. rewrite <- (append_empty baseClientId) in Heq at 2.
  by apply (inj (String.app baseClientId)) in Heq.
Qed.

Lemma natsConnect_from_shape remaining i :
  (length (attempts (loop remaining i).2) ≤ remaining)%nat
  ∧ 0 ≤ slept (loop remaining i).2 ≤ slept (nats_backoff i remaining)
  ∧ Forall (λ id, ∃ j, (i ≤ j < i + remaining)%nat ∧ id = idOf j)
           (attempts (loop remaining i).2)
  ∧ (∀ id, (loop remaining i).1 = ConnectedAs id →
       last (loop remaining i).2 = Some (Attempt id)
       ∧ ∃ j, (i ≤ j < i + remaining)%nat ∧ id = idOf j ∧ connect j id = None).
Proof.
  revert i. induction remaining as [|remaining IH]; intros i.
  - simpl. split_and!; try done.
  - rewrite nats_backoff_S, slept_attempt, slept_sleep.
    pose proof (nats_backoff_slept (S i) remaining) as Hrest.
    destruct (IH (S i)) as (Hlen & Hslept & Hids & Hok).
    simpl. destruct (connect i (idOf i)) as [msg|] eqn:Hconnect.
    + destruct (negb _ && _); cbn [fst snd].
      * simpl. split_and!; try lia; try done.
        repeat constructor. exists i. split; [lia|done].
      * rewrite slept_attempt, slept_sleep. simpl.
        split_and!; try lia.
        -- constructor; [exists i; split; [lia|done]|].
           eapply Forall_impl; [exact Hids|].
           intros id (j & Hj & ->). exists j. split; [lia|done].
        -- intros id Hid. destruct (Hok id Hid) as (Hlast & j & Hj & -> & Hnone).
           split.
           ++ destruct ((loop remaining (S i)).2) as [|step rest]; [done|].
              exact Hlast.
           ++ exists j. split; [lia|]. by split.
    + cbn [fst snd]. simpl. split_and!; try lia.
      * repeat constructor. exists i. split; [lia|done].
      * intros id [= <-]. split; [done|]. exists i. split; [lia|]. by split.
Qed.

(** X7.  Whatever the bus answers, the routine tries at most eight times
    and sleeps at most 26.8 seconds; the first attempt uses the configured
    client id as it is, every later attempt an id that differs from it;
    and when it reports a connection, the id it reports is the one of its
    last attempt, which the bus accepted. *)
Theorem natsConnect_shape :
  (length (attempts (natsConnect connect stamp noise baseClientId).2) ≤ 8)%nat
  ∧ 0 ≤ slept (natsConnect connect stamp noise baseClientId).2 ≤ 26800
  ∧ head (attempts (natsConnect connect stamp noise baseClientId).2)
    = Some baseClientId
  ∧ Forall (λ id, id ≠ baseClientId)
           (tail (attempts (natsConnect connect stamp noise baseClientId).2))
  ∧ (∀ id, (natsConnect connect stamp noise baseClientId).1 = ConnectedAs id →
       last (natsConnect connect stamp noise baseClientId).2 = Some (Attempt id)
       ∧ ∃ j, connect j id = None).
Proof.
  unfold natsConnect.
  destruct (natsConnect_from_shape 8 1) as (Hlen & Hslept & _ & Hok).
  assert (slept (nats_backoff 1 8) = 26800) as Hall by (by vm_compute).
  split; [exact Hlen|]. split; [lia|]. split_and!.
  - simpl. rewrite idOf_first.
    destruct (connect 1%nat baseClientId) as [msg|]; [|done].
    by destruct (negb _ && _).
  - simpl. rewrite idOf_first.
    destruct (connect 1%nat baseClientId) as [msg|]; [|done].
    destruct (negb _ && _); [done|]. cbn [fst snd]. simpl.
    destruct (natsConnect_from_shape 7 2) as (_ & _ & Hids & _).
    eapply Forall_impl; [exact Hids|].
    intros id (j & Hj & ->). apply idOf_later. lia.
  - intros id Hid. destruct (Hok id Hid) as (Hlast & j & _ & _ & Hnone).
    split; [exact Hlast|by exists j].
Qed.

End NatsFacts.

Lemma natsConnect_other_error_fatal_witness :
  natsConnect (λ _ _, Some "connect ECONNREFUSED") (λ _, "lx3") (λ _, "q7")
              "payments-depl-1"
  = (Failed "connect ECONNREFUSED",
     [Attempt "payments-depl-1"; Sleep 800;
      Attempt "payments-depl-1-lx3-q7"; Sleep 1600;
      Attempt "payments-depl-1-lx3-q7"]).
Proof.
  apply (natsConnect_other_error_fatal
           (λ _ _, Some "connect ECONNREFUSED") (λ _, "lx3") (λ _, "q7")
           "payments-depl-1" 3 "connect ECONNREFUSED").
  - lia.
  - intros j Hj. exists "connect ECONNREFUSED". split; [reflexivity|right; lia].
  - reflexivity.
  - reflexivity.
Defined.

Lemma natsConnect_gives_up_witness :
  (natsConnect (λ _ _, Some "stan: clientID already registered")
               (λ _, "lx3") (λ _, "q7") "payments-depl-1").1
  = Failed "Failed to connect to NATS after retries."
  ∧ slept (natsConnect (λ _ _, Some "stan: clientID already registered")
                       (λ _, "lx3") (λ _, "q7") "payments-depl-1").2
    = 26800.
Proof.
  destruct (natsConnect_gives_up
              (λ _ _, Some "stan: clientID already registered")
              (λ _, "lx3") (λ _, "q7") "payments-depl-1")
    as (Hfailed & _ & Hslept).
  - intros j Hj. exists "stan: clientID already registered".
    split; [reflexivity|left; reflexivity].
  - split; [exact Hfailed|exact Hslept].
Defined.

End StartupFacts.

(** ** More on the payment route *)

Module PaymentsMore.
Import Common JsNumber Payments PaymentsFacts.

Section Facts.

Variable stripe_answer : ChargeCall -> option string.
Variable new_ObjectId : list Payment -> string.
Variable nats_accepts : PaymentCreatedEvent -> bool.

Local Abbreviation handler :=
  (createChargeRouter stripe_answer new_ObjectId nats_accepts).
Local Abbreviation unfolded :=
  (guards_unfold stripe_answer new_ObjectId nats_accepts).

(** The handler never writes to the orders collection. *)
Lemma orders_untouched req life w :
  orders (world_of (handler req life w)) = orders w.
Proof.
  rewrite unfolded.
  destruct (order_of req w) as [order|]; [|done].
  repeat (case_bool_decide; [done|]).
  destruct (payment_of req w); [done|].
  destruct life as [|life1]; [done|]. cbv zeta.
  destruct (stripe_answer _) as [cid|]; [|done].
  destruct life1 as [|[|[|life4]]]; simpl; try done;
    by destruct (nats_accepts _).
Qed.

(** X8.  A run that charged the gateway but stored no payment, because the
    gateway rejected the charge or because the process died before
    [payment.save()], leaves the request admissible: a retry of the same
    request places the very same call again, with the same idempotency
    key, amount and source. *)
Theorem retry_repeats_the_charge req life w order :
  admitted req w order →
  (life = 1%nat ∨ (life ≠ 0%nat ∧ stripe_answer (charge_for req order) = None)) →
  gateway_calls (world_of (handler req life w))
  = gateway_calls w ++ [charge_for req order]
  ∧ payments (world_of (handler req life w)) = payments w
  ∧ bus (world_of (handler req life w)) = bus w
  ∧ admitted req (world_of (handler req life w)) order
  ∧ ∀ life', life' ≠ 0%nat →
      gateway_calls (world_of (handler req life' (world_of (handler req life w))))
      = gateway_calls w ++ [charge_for req order; charge_for req order].
Proof.
  intros Hadm Hwhy.
  assert (world_of (handler req life w)
          = with_gateway_call (charge_for req order) w) as ->.
  { destruct (admitted_guards req w order Hadm)
      as (Horder & Howner & Hcancelled & Hcomplete & Hpayment).
    rewrite unfolded, Horder, Howner, Hcancelled, Hcomplete, Hpayment.
    destruct Hwhy as [->|[Hlife Hnone]].
    - cbv zeta. by destruct (stripe_answer _).
    - destruct life as [|life1]; [done|]. cbv zeta. by rewrite Hnone. }
  assert (admitted req (with_gateway_call (charge_for req order) w) order)
    as Hadm' by exact Hadm.
  split_and!; try done.
  intros life' Hlife'.
  rewrite (gateway_calls_after stripe_answer new_ObjectId nats_accepts).
  destruct Hadm' as (Horder & Howner & Hcancelled & Hcomplete & Hpayment).
  rewrite Horder, bool_decide_eq_true_2 by done.
  simpl. by rewrite <- app_assoc.
Qed.

(** X9.  Once a run has stored a payment, whether or not it lived to
    answer, every request for the same order that is handled afterwards is
    thrown out and changes nothing: in every world that still holds what
    the run stored, whatever else has been stored since, whatever has
    become of the order replica, whoever asks and whatever token they
    bring.  The error is that of the first guard the request fails; if the
    replica is still there, belongs to the requester and is neither
    Cancelled nor Complete, it is "Payment already exists for this
    order". *)
Theorem paid_order_rejects_later_requests req life w req' life' w' :
  payments (world_of (handler req life w)) ≠ payments w →
  body_orderId req' = body_orderId req →
  payments (world_of (handler req life w)) ⊆ payments w' →
  (∃ e, handler req' life' w' = Thrown e w' ∧ e ≠ GatewayError)
  ∧ (∀ order,
       order_of req' w' = Some order →
       Some (order_userId order) = currentUser req' →
       order_status order ≠ Cancelled →
       order_status order ≠ Complete →
       handler req' life' w'
       = Thrown (BadRequestError "Payment already exists for this order") w').
Proof.
  intros Hstored Hid Hlater.
  destruct (payments_after stripe_answer new_ObjectId nats_accepts req life w)
    as [Hsame|(_ & p & Hp & Hpayments)]; [done|].
  assert (Hfound : ∃ q, payment_of req' w' = Some q).
  { destruct (payment_of req' w') as [q|] eqn:Hnone; [by exists q|].
    assert (Hin : p ∈ payments w').
    { apply Hlater. rewrite Hpayments. set_solver. }
    apply list_elem_of_In in Hin.
    pose proof (List.find_none _ _ Hnone p Hin) as Hfalse. simpl in Hfalse.
    apply bool_decide_eq_false in Hfalse. congruence. }
  destruct Hfound as [q Hq]. split.
  - apply not_admitted_thrown.
    intros order (_ & _ & _ & _ & Hnone). congruence.
  - intros order Horder Howner Hcancelled Hcomplete.
    rewrite (unfolded req' life'), Horder, Hq.
    rewrite bool_decide_eq_false_2 by (by intros []).
    by rewrite !bool_decide_eq_false_2.
Qed.

(** X10.  What a run publishes and answers is what it stored.  The bus is
    either as it was, or it has one more PaymentCreated event, and then the
    run has stored exactly one more Payment, for the order of the request
    and with the charge id the gateway answered, and the event carries that
    payment's id, order id and charge id.  A response is always a 201 with
    the id of the payment stored last.  The orders collection is never
    written. *)
Theorem published_matches_stored req life w :
  orders (world_of (handler req life w)) = orders w
  ∧ (bus (world_of (handler req life w)) = bus w
     ∨ ∃ order p,
         order_of req w = Some order
         ∧ stripe_answer (charge_for req order) = Some (payment_stripeId p)
         ∧ payment_orderId p = body_orderId req
         ∧ payments (world_of (handler req life w)) = payments w ++ [p]
         ∧ bus (world_of (handler req life w))
           = bus w ++ [mkPaymentCreated (payment_id p) (payment_orderId p)
                                        (payment_stripeId p)])
  ∧ (∀ resp life' w',
       handler req life w = Returned resp life' w' →
       status resp = 201%nat
       ∧ ∃ p, last (payments w') = Some p ∧ sent_id resp = payment_id p).
Proof.
  split; [apply orders_untouched|].
  rewrite unfolded.
  destruct (order_of req w) as [order|]; [|by split; [left|]].
  repeat (case_bool_decide; [by split; [left|]|]).
  destruct (payment_of req w); [by split; [left|]|].
  destruct life as [|life1]; [by split; [left|]|]. cbv zeta.
  destruct (stripe_answer _) as [cid|] eqn:Hcid; [|by split; [left|]].
  destruct life1 as [|[|[|life4]]]; try (by split; [left|]).
  - split; [|done]. simpl. destruct (nats_accepts _); [|by left].
    right. by exists order, (mkPayment (new_ObjectId (payments w)) (body_orderId req) cid).
  - split.
    + simpl. destruct (nats_accepts _); [|by left].
      right. by exists order, (mkPayment (new_ObjectId (payments w)) (body_orderId req) cid).
    + intros resp life' w' [= <- <- <-]. split; [done|].
      exists (mkPayment (new_ObjectId (payments w)) (body_orderId req) cid).
      split; [|done]. destruct (nats_accepts _); simpl; apply last_snoc.
Qed.

(** X11.  Served one after another, requests keep "at most one Payment
    per Order", whatever they ask for, whatever the gateway and the bus
    answer and wherever a process dies: every run finds what the runs
    before it have stored.  Nothing stored is ever removed or changed. *)
Theorem one_by_one_keeps_one_payment_per_order reqs w :
  one_payment_per_order w →
  one_payment_per_order
    (one_by_one stripe_answer new_ObjectId nats_accepts reqs w)
  ∧ payments w
    `prefix_of` payments (one_by_one stripe_answer new_ObjectId nats_accepts reqs w).
Proof.
  revert w. induction reqs as [|[req life] reqs IH]; intros w Hone; [done|].
  cbn [one_by_one foldl fst snd].
  destruct (IH (world_of (handler req life w))) as [Hkept Hprefix].
  { by apply run_keeps_one_payment_per_order. }
  split; [exact Hkept|].
  etrans; [|exact Hprefix].
  destruct (payments_after stripe_answer new_ObjectId nats_accepts req life w)
    as [->|(_ & p & _ & ->)]; [done|].
  by apply prefix_app_r.
Qed.

End Facts.

Import Samples.

(** Alice pays for o1 and the process dies before it answers; she tries
    again, twice, and bob tries too: o1 ends with the one Payment of the
    first run. *)
Lemma one_by_one_keeps_one_payment_per_order_witness :
  one_payment_per_order
    (one_by_one gateway_up next_id bus_up
       [(pay "o1" "alice", 2%nat); (pay "o1" "alice", 4%nat);
        (pay "o1" "alice", 4%nat); (pay "o1" "bob", 4%nat)] shop)
  ∧ payments shop
    `prefix_of` payments
      (one_by_one gateway_up next_id bus_up
         [(pay "o1" "alice", 2%nat); (pay "o1" "alice", 4%nat);
          (pay "o1" "alice", 4%nat); (pay "o1" "bob", 4%nat)] shop).
Proof.
  apply (one_by_one_keeps_one_payment_per_order gateway_up next_id bus_up
           [(pay "o1" "alice", 2%nat); (pay "o1" "alice", 4%nat);
            (pay "o1" "alice", 4%nat); (pay "o1" "bob", 4%nat)] shop).
  apply NoDup_singleton.
Defined.

Lemma retry_repeats_the_charge_witness :
  gateway_calls
    (world_of (createChargeRouter gateway_up next_id bus_up (pay "o1" "alice") 4%nat
       (world_of (createChargeRouter gateway_up next_id bus_up
                    (pay "o1" "alice") 1%nat shop))))
  = [mkChargeCall "usd" (of_Z 2000) "tok_visa" "o1";
     mkChargeCall "usd" (of_Z 2000) "tok_visa" "o1"].
Proof.
  assert (Hadm : admitted (pay "o1" "alice") shop (mkOrder "o1" "alice" Created (of_Z 20))).
  { unfold admitted. split_and!; first [reflexivity | discriminate]. }
  destruct (retry_repeats_the_charge gateway_up next_id bus_up
              (pay "o1" "alice") 1%nat shop _ Hadm) as (_ & _ & _ & _ & Hretry).
  - left. reflexivity.
  - apply (Hretry 4%nat). discriminate.
Defined.

Lemma paid_order_rejects_later_requests_witness :
  createChargeRouter gateway_up next_id bus_up
    (mkRequest "tok_mastercard" "o1" (Some "alice")) 4%nat
    (world_of (createChargeRouter gateway_up next_id bus_up
                 (pay "o1" "alice") 2%nat shop))
  = Thrown (BadRequestError "Payment already exists for this order")
      (world_of (createChargeRouter gateway_up next_id bus_up
                   (pay "o1" "alice") 2%nat shop))
  ∧ ∃ e, createChargeRouter gateway_up next_id bus_up
           (mkRequest "tok_mastercard" "o1" (Some "bob")) 4%nat
           (shop_o1_cancelled
              [mkPayment "pay_0" "o4" "ch_o4"; mkPayment "pay_1" "o1" "ch_o1";
               mkPayment "pay_2" "o2" "ch_o2"])
         = Thrown e
             (shop_o1_cancelled
                [mkPayment "pay_0" "o4" "ch_o4"; mkPayment "pay_1" "o1" "ch_o1";
                 mkPayment "pay_2" "o2" "ch_o2"])
         ∧ e ≠ GatewayError.
Proof.
  split.
  - edestruct (paid_order_rejects_later_requests gateway_up next_id bus_up
                 (pay "o1" "alice") 2%nat shop
                 (mkRequest "tok_mastercard" "o1" (Some "alice")) 4%nat
                 (world_of (createChargeRouter gateway_up next_id bus_up
                              (pay "o1" "alice") 2%nat shop)))
      as [_ Hduplicate].
    + discriminate.
    + reflexivity.
    + intros p Hp. exact Hp.
    + apply (Hduplicate (mkOrder "o1" "alice" Created (of_Z 20)));
        first [reflexivity | discriminate].
  - edestruct (paid_order_rejects_later_requests gateway_up next_id bus_up
                 (pay "o1" "alice") 2%nat shop
                 (mkRequest "tok_mastercard" "o1" (Some "bob")) 4%nat
                 (shop_o1_cancelled
                    [mkPayment "pay_0" "o4" "ch_o4";
                     mkPayment "pay_1" "o1" "ch_o1";
                     mkPayment "pay_2" "o2" "ch_o2"]))
      as [Hthrown _].
    + discriminate.
    + reflexivity.
    + intros p Hp. apply list_elem_of_In. apply list_elem_of_In in Hp.
      vm_compute in Hp. vm_compute. tauto.
    + exact Hthrown.
Defined.

End PaymentsMore.

(** ** The outbox worker *)

Module OutboxWorkerFacts.
Import OutboxWorker.

Lemma evolves_refl d : evolves d d.
Proof. unfold evolves. split_and!; try done; lia. Qed.

Lemma evolves_trans d1 d2 d3 : evolves d1 d2 → evolves d2 d3 → evolves d1 d3.
Proof.
  unfold evolves. intros (? & ? & ? & ? & ? & ? & ? & ?) (? & ? & ? & ? & ? & ? & ? & ?).
  split_and!; try congruence; [auto|lia].
Qed.

Lemma Forall2_evolves_refl c : Forall2 evolves c c.
Proof. induction c; constructor; [apply evolves_refl|done]. Qed.

Lemma Forall2_evolves_trans c1 c2 c3 :
  Forall2 evolves c1 c2 → Forall2 evolves c2 c3 → Forall2 evolves c1 c3.
Proof.
  intros H12. revert c3. induction H12 as [|d1 d2 c1 c2 Hd _ IH]; intros c3 H23.
  - by inversion H23.
  - inversion H23 as [|? d3 ? c3' Hd' H23']; subst.
    constructor; [by eapply evolves_trans|by apply IH].
Qed.

Lemma updateOne_evolves matches update c :
  (∀ d, evolves d (update d)) →
  Forall2 evolves c (Outbox_updateOne matches update c).
Proof.
  intros Hupdate. induction c as [|d c IH]; simpl; [constructor|].
  destruct (matches d).
  - constructor; [apply Hupdate|apply Forall2_evolves_refl].
  - constructor; [apply evolves_refl|exact IH].
Qed.

Lemma set_published_evolves t d : evolves d (set_published t d).
Proof. unfold evolves. simpl. split_and!; try done; lia. Qed.

Lemma record_failure_evolves msg d : evolves d (record_failure msg d).
Proof. unfold evolves. simpl. split_and!; try done; lia. Qed.

Section Facts.

Variable publish_error : OutboxDoc -> option string.
Variable now : OutboxDoc -> Z.

Local Abbreviation each := (publishEach publish_error now).
Local Abbreviation batch := (publishBatch publish_error now).

(** The bus gets the messages of a prefix of the events that publish. *)
Lemma publishEach_sent events life w :
  ∃ sent, sublist sent events
          ∧ nats (each events life w).2 = nats w ++ (message_of <$> sent).
Proof.
  revert life w. induction events as [|event events IH]; intros life w; simpl.
  - exists []. split; [done|]. simpl. by rewrite app_nil_r.
  - destruct life as [|[|life2]]; simpl.
    + exists []. split; [apply sublist_nil_l|]. simpl. by rewrite app_nil_r.
    + destruct (publish_error event).
      * exists []. split; [apply sublist_nil_l|]. simpl. by rewrite app_nil_r.
      * exists [event]. split; [|done].
        apply sublist_skip, sublist_nil_l.
    + destruct (publish_error event) as [msg|].
      * destruct (IH life2 (mkWorld (Outbox_updateOne
                     (λ d, bool_decide (oid d = oid event))
                     (record_failure msg) (outbox w)) (nats w)))
          as (sent & Hsub & Hnats).
        exists sent. split; [by apply sublist_cons|exact Hnats].
      * destruct (IH life2 (mkWorld (Outbox_updateOne
                     (λ d, bool_decide (oid d = oid event) && negb (published d))
                     (set_published (now event)) (outbox w))
                     (nats w ++ [message_of event])))
          as (sent & Hsub & Hnats).
        exists (event :: sent). split; [by apply sublist_skip|].
        rewrite Hnats. simpl. by rewrite <- app_assoc.
Qed.

Lemma Outbox_find_pending c d :
  d ∈ Outbox_find c → d ∈ c ∧ pending d = true.
Proof.
  unfold Outbox_find. intros Hin%subseteq_take.
  rewrite merge_sort_Permutation in Hin.
  apply list_elem_of_filter in Hin as [Hpending Hin].
  split; [done|by apply Is_true_true].
Qed.

Lemma Outbox_find_length c : (length (Outbox_find c) ≤ 100)%nat.
Proof. unfold Outbox_find. rewrite length_take. unfold BATCH_SIZE. lia. Qed.

(** X12.  The worker only ever moves events forward: after a batch,
    however far it got, the outbox holds the same events in the same
    places, with their type, payload and creation time untouched; none has
    been deleted or added, none that was published is unpublished, and no
    attempt counter has gone down. *)
Theorem worker_only_moves_forward life w :
  Forall2 evolves (outbox w) (outbox (batch life w).2).
Proof.
  unfold publishBatch. generalize (Outbox_find (outbox w)). intros events.
  revert life w. induction events as [|event events IH]; intros life w; simpl.
  - apply Forall2_evolves_refl.
  - destruct life as [|[|life2]]; simpl.
    + apply Forall2_evolves_refl.
    + destruct (publish_error event); apply Forall2_evolves_refl.
    + destruct (publish_error event) as [msg|].
      * eapply Forall2_evolves_trans; [|apply IH]. simpl.
        apply updateOne_evolves, record_failure_evolves.
      * eapply Forall2_evolves_trans; [|apply IH]. simpl.
        apply updateOne_evolves, set_published_evolves.
Qed.

(** X13.  A batch hands the bus at most a hundred messages, each the
    message of an event that was stored unpublished with fewer than ten
    attempts when the batch began; whatever was on the bus stays.  An
    event that is published, or that has used up its ten attempts, is
    never sent again. *)
Theorem worker_sends_only_pending life w :
  ∃ sent,
    nats (batch life w).2 = nats w ++ (message_of <$> sent)
    ∧ (length sent ≤ 100)%nat
    ∧ Forall (λ d, d ∈ outbox w ∧ published d = false ∧ attempts d < 10) sent.
Proof.
  unfold publishBatch.
  destruct (publishEach_sent (Outbox_find (outbox w)) life w)
    as (sent & Hsub & Hnats).
  exists sent. split_and!; [exact Hnats| |].
  - etrans; [by apply sublist_length|apply Outbox_find_length].
  - apply Forall_forall. intros d Hd.
    apply (sublist_subseteq _ _ Hsub), Outbox_find_pending in Hd as [Hin Hpending].
    unfold pending in Hpending. apply andb_true_iff in Hpending as [Hpub Hatt].
    split_and!; [done|by destruct (published d)|].
    by apply bool_decide_eq_true in Hatt.
Qed.

(** X14.  At least once, not exactly once: if the process is killed right
    after the first publish of a batch, before the event is marked, the
    message is on the bus and the outbox is as it was; the next batch
    reads the same events and, as soon as it can act at all, sends that
    message a second time. *)
Theorem crash_after_publish_duplicates life' w event events :
  Outbox_find (outbox w) = event :: events →
  publish_error event = None →
  life' ≠ 0%nat →
  batch 1 w = (Killed, mkWorld (outbox w) (nats w ++ [message_of event]))
  ∧ ∃ more,
      nats (batch life' (batch 1 w).2).2
      = nats w ++ [message_of event; message_of event] ++ more.
Proof.
  intros Hfind Hok Hlife.
  assert (batch 1 w = (Killed, mkWorld (outbox w) (nats w ++ [message_of event])))
    as Hcrash.
  { unfold publishBatch. rewrite Hfind. simpl. by rewrite Hok. }
  split; [exact Hcrash|]. rewrite Hcrash. unfold publishBatch. simpl.
  rewrite Hfind. destruct life' as [|[|life2]]; [done| |]; simpl; rewrite Hok.
  - exists []. simpl. by rewrite <- app_assoc.
  - match goal with
    | |- context [publishEach _ _ events life2 ?w2] =>
      destruct (publishEach_sent events life2 w2) as (sent & _ & ->)
    end.
    exists (message_of <$> sent). simpl. by rewrite <- !app_assoc.
Qed.

Lemma fmap_ext_in {A B : Type} (f g : A → B) (l : list A) :
  (∀ x, x ∈ l → f x = g x) → f <$> l = g <$> l.
Proof.
  induction l as [|x l IH]; intros Hfg; [done|].
  simpl. f_equal; [apply Hfg; left|apply IH; intros y Hy; apply Hfg; by right].
Qed.

Lemma oid_unique c d e :
  NoDup (oid <$> c) → d ∈ c → e ∈ c → oid d = oid e → d = e.
Proof.
  induction c as [|x c IH]; intros Hnodup Hd He Hoid; [by apply elem_of_nil in Hd|].
  simpl in Hnodup. apply NoDup_cons in Hnodup as [Hx Hnodup].
  apply elem_of_cons in Hd as [->|Hd]; apply elem_of_cons in He as [->|He].
  - done.
  - destruct Hx. rewrite Hoid. apply list_elem_of_fmap. by exists e.
  - destruct Hx. rewrite <- Hoid. apply list_elem_of_fmap. by exists d.
  - by apply IH.
Qed.

(** With distinct ids, updating the first match is updating every
    match. *)
Lemma updateOne_unique matches update i c :
  NoDup (oid <$> c) →
  (∀ d, matches d = true → oid d = i) →
  Outbox_updateOne matches update c
  = (λ d, if matches d then update d else d) <$> c.
Proof.
  intros Hnodup Hmatches. induction c as [|x c IH]; [done|].
  simpl in Hnodup. apply NoDup_cons in Hnodup as [Hx Hnodup]. simpl.
  destruct (matches x) eqn:Hmx.
  - f_equal. rewrite <- (list_fmap_id c) at 1. apply fmap_ext_in.
    intros d Hd. destruct (matches d) eqn:Hmd; [|done].
    destruct Hx. rewrite (Hmatches x Hmx), <- (Hmatches d Hmd).
    apply list_elem_of_fmap. by exists d.
  - f_equal. by apply IH.
Qed.

Local Abbreviation settled := (settle publish_error now).
Local Abbreviation taken := (accepted publish_error).
Local Abbreviation step_all events :=
  (λ d, if bool_decide (oid d ∈ oid <$> events) then settled d else d).

Lemma settle_oid d : oid (settled d) = oid d.
Proof.
  unfold settle. destruct (publish_error d); [done|]. by destruct (published d).
Qed.

Lemma step_all_nil (c : list OutboxDoc) : step_all [] <$> c = c.
Proof.
  rewrite <- (list_fmap_id c) at 2. apply fmap_ext_in. intros d _.
  rewrite bool_decide_eq_false_2; [done|]. apply not_elem_of_nil.
Qed.

(** What a batch has done to the outbox when it stops: it has settled the
    first [n] of its events and left everything else alone; with life
    enough for two effects per event it has settled them all. *)
Lemma publishEach_outbox events life w :
  NoDup (oid <$> outbox w) →
  NoDup (oid <$> events) →
  events ⊆ outbox w →
  ∃ n, outbox (each events life w).2 = step_all (take n events) <$> outbox w
       ∧ ((2 * length events ≤ life)%nat →
          each events life w
          = (Finished,
             mkWorld (step_all events <$> outbox w)
                     (nats w ++ (message_of <$> taken events)))).
Proof.
  revert life w. induction events as [|e es IH]; intros life w Hc Hes Hsub.
  { exists 0%nat. simpl. rewrite step_all_nil. split; [done|]. intros _.
    rewrite app_nil_r. by destruct w. }
  simpl in Hes. apply NoDup_cons in Hes as [He Hes].
  assert (e ∈ outbox w) as Hin by (apply Hsub; left).
  assert (es ⊆ outbox w) as Hsub' by (intros x Hx; apply Hsub; by right).
  (* the first event is not settled *)
  assert (∃ n, outbox w = step_all (take n (e :: es)) <$> outbox w) as Hzero
    by (exists 0%nat; simpl; by rewrite step_all_nil).
  destruct life as [|[|life2]].
  { destruct Hzero as [n Hn]. exists n. split; [exact Hn|]. simpl. lia. }
  { destruct Hzero as [n Hn]. exists n. simpl.
    destruct (publish_error e); (split; [exact Hn|lia]). }
  (* the first event is settled, the others follow *)
  set (h := λ d, if bool_decide (oid d = oid e) then settled d else d).
  assert (∀ c' nats',
            (match publish_error e with
             | None =>
               Outbox_updateOne
                 (λ d, bool_decide (oid d = oid e) && negb (published d))
                 (set_published (now e)) (outbox w) = c'
               ∧ nats w ++ [message_of e] = nats'
             | Some msg =>
               Outbox_updateOne (λ d, bool_decide (oid d = oid e))
                                (record_failure msg) (outbox w) = c'
               ∧ nats w = nats'
             end) →
            c' = h <$> outbox w
            ∧ nats' ++ (message_of <$> taken es)
              = nats w ++ (message_of <$> taken (e :: es))) as Hfirst.
  { intros c' nats'. unfold accepted. simpl.
    destruct (publish_error e) as [msg|] eqn:Herr; intros [<- <-].
    - split; [|by rewrite bool_decide_eq_false_2].
      rewrite (updateOne_unique _ _ (oid e)) by
        (try done; intros d Hd; by apply bool_decide_eq_true in Hd).
      apply fmap_ext_in. intros d Hd. unfold h. case_bool_decide as Hoid; [|done].
      rewrite (oid_unique _ d e Hc Hd Hin Hoid). unfold settle. by rewrite Herr.
    - split; [|rewrite bool_decide_eq_true_2 by done; simpl;
                by rewrite <- app_assoc].
      rewrite (updateOne_unique _ _ (oid e)) by
        (try done; intros d [Hd _]%andb_true_iff; by apply bool_decide_eq_true in Hd).
      apply fmap_ext_in. intros d Hd. unfold h. case_bool_decide as Hoid; [|done].
      rewrite (oid_unique _ d e Hc Hd Hin Hoid). unfold settle. rewrite Herr.
      by destruct (published e). }
  assert (∀ d, oid (h d) = oid d) as Hoid.
  { intros d. unfold h. case_bool_decide; [apply settle_oid|done]. }
  assert (oid <$> (h <$> outbox w) = oid <$> outbox w) as Hoids.
  { rewrite <- list_fmap_compose. apply fmap_ext_in. intros d _. apply Hoid. }
  assert (es ⊆ h <$> outbox w) as Hsub2.
  { intros x Hx. apply list_elem_of_fmap. exists x. split; [|by apply Hsub'].
    unfold h. rewrite bool_decide_eq_false_2; [done|].
    intros Heq. apply He. rewrite <- Heq. apply list_elem_of_fmap. by exists x. }
  assert (∀ n, step_all (take n es) <$> (h <$> outbox w)
               = step_all (take (S n) (e :: es)) <$> outbox w) as Hcompose.
  { intros n. rewrite <- list_fmap_compose. apply fmap_ext_in. intros d Hd.
    simpl. unfold h. destruct (decide (oid d = oid e)) as [Hde|Hde].
    - rewrite (bool_decide_eq_true_2 (oid d = oid e)) by done.
      rewrite settle_oid, Hde.
      rewrite bool_decide_eq_false_2.
      2:{ intros Hmem. apply He.
          apply list_elem_of_fmap in Hmem as (x & -> & Hx%subseteq_take).
          apply list_elem_of_fmap. by exists x. }
      rewrite bool_decide_eq_true_2; [done|]. simpl. left.
    - rewrite (bool_decide_eq_false_2 (oid d = oid e)) by done.
      destruct (decide (oid d ∈ oid <$> take n es)) as [Hmem|Hmem].
      + rewrite !bool_decide_eq_true_2; [done| |done]. simpl. by right.
      + rewrite !bool_decide_eq_false_2; [done| |done].
        simpl. intros [?|?]%elem_of_cons; done. }
  cbn [publishEach].
  destruct (publish_error e) as [msg|] eqn:Herr.
  - destruct (Hfirst _ _ (conj eq_refl eq_refl)) as [Hc' Hnats'].
    cbn [outbox nats]. rewrite Hc'.
    destruct (IH life2 (mkWorld (h <$> outbox w) (nats w)))
      as (n & Hn & Hfull); cbn [outbox nats] in *;
      [by rewrite Hoids|done|done|].
    exists (S n). split.
    + rewrite Hn. apply Hcompose.
    + intros Hlife. cbn [length] in Hlife. rewrite Hfull by lia.
      pose proof (Hcompose (length es)) as Hall.
      rewrite firstn_all in Hall. cbn [take firstn length] in Hall.
      rewrite firstn_all in Hall. by rewrite Hall, Hnats'.
  - destruct (Hfirst _ _ (conj eq_refl eq_refl)) as [Hc' Hnats'].
    cbn [outbox nats]. rewrite Hc'.
    destruct (IH life2 (mkWorld (h <$> outbox w) (nats w ++ [message_of e])))
      as (n & Hn & Hfull); cbn [outbox nats] in *;
      [by rewrite Hoids|done|done|].
    exists (S n). split.
    + rewrite Hn. apply Hcompose.
    + intros Hlife. cbn [length] in Hlife. rewrite Hfull by lia.
      pose proof (Hcompose (length es)) as Hall.
      rewrite firstn_all in Hall. cbn [take firstn length] in Hall.
      rewrite firstn_all in Hall. by rewrite Hall, Hnats'.
Qed.

#[local] Instance older_trans : Transitive older.
Proof. intros d1 d2 d3. unfold older. lia. Qed.

#[local] Instance older_total : Total older.
Proof. intros d1 d2. unfold older. lia. Qed.

Lemma sublist_fmap_oid (l1 l2 : list OutboxDoc) :
  sublist l1 l2 → sublist (oid <$> l1) (oid <$> l2).
Proof.
  induction 1 as [|x l1 l2 _ IH|x l1 l2 _ IH]; simpl;
    [constructor|by apply sublist_skip|by apply sublist_cons].
Qed.

Lemma Outbox_find_NoDup c : NoDup (oid <$> c) → NoDup (oid <$> Outbox_find c).
Proof.
  intros Hc. unfold Outbox_find.
  assert (sublist (oid <$> take BATCH_SIZE (merge_sort older (filter pending c)))
                  (oid <$> merge_sort older (filter pending c))) as Htake
    by apply sublist_fmap_oid, sublist_take.
  eapply sublist_NoDup; [|exact Htake]. rewrite merge_sort_Permutation.
  assert (sublist (oid <$> filter pending c) (oid <$> c)) as Hfilter
    by apply sublist_fmap_oid, sublist_filter.
  eapply sublist_NoDup; [exact Hc|exact Hfilter].
Qed.

Lemma Outbox_find_subseteq c : Outbox_find c ⊆ c.
Proof. intros d Hd. by apply Outbox_find_pending in Hd as [? _]. Qed.

(** With distinct ids, an event is in the batch when its id is. *)
Lemma in_batch_by_oid c d :
  NoDup (oid <$> c) → d ∈ c →
  oid d ∈ oid <$> Outbox_find c ↔ d ∈ Outbox_find c.
Proof.
  intros Hc Hd. split.
  - intros (e & Hoid & He)%list_elem_of_fmap.
    by rewrite (oid_unique c d e Hc Hd (Outbox_find_subseteq c e He) Hoid).
  - intros Hin. apply list_elem_of_fmap. by exists d.
Qed.

(** X15.  The batch the worker reads is made of the oldest pending
    events, oldest first: it is sorted by creation time; it holds a
    hundred events, or all the pending ones when they are fewer; every
    event in it is stored, unpublished and below ten attempts; and a
    pending event that was left out was created no earlier than any event
    that was taken. *)
Theorem Outbox_find_oldest_first (c : list OutboxDoc) :
  StronglySorted older (Outbox_find c)
  ∧ length (Outbox_find c) = Nat.min 100 (length (filter pending c))
  ∧ (∀ d, d ∈ Outbox_find c →
       d ∈ c ∧ published d = false ∧ attempts d < 10)
  ∧ (∀ a b, a ∈ Outbox_find c → b ∈ c → pending b = true →
       b ∉ Outbox_find c → createdAt a ≤ createdAt b).
Proof.
  pose proof (StronglySorted_merge_sort older (filter pending c)) as Hsorted.
  rewrite <- (take_drop BATCH_SIZE) in Hsorted.
  apply StronglySorted_app in Hsorted as (Hcross & Htake & _).
  split_and!.
  - exact Htake.
  - unfold Outbox_find. rewrite length_take.
    by rewrite (Permutation_length (merge_sort_Permutation older _)).
  - intros d [Hin Hpending]%Outbox_find_pending.
    unfold pending in Hpending. apply andb_true_iff in Hpending as [Hpub Hatt].
    split_and!; [done|by destruct (published d)|].
    by apply bool_decide_eq_true in Hatt.
  - intros a b Ha Hb Hpending Hout. apply (Hcross a b Ha).
    assert (b ∈ merge_sort older (filter pending c)) as Hin.
    { rewrite merge_sort_Permutation. apply list_elem_of_filter.
      split; [by apply Is_true_true|done]. }
    rewrite <- (take_drop BATCH_SIZE) in Hin.
    apply elem_of_app in Hin as [Hin|Hin]; [done|exact Hin].
Qed.

(** When the pending events are at most a hundred, the batch has them
    all. *)
Lemma Outbox_find_all c d :
  (length (filter pending c) ≤ 100)%nat →
  d ∈ c → pending d = true → d ∈ Outbox_find c.
Proof.
  intros Hlen Hd Hpending. unfold Outbox_find.
  rewrite take_ge
    by (rewrite (Permutation_length (merge_sort_Permutation older _));
        unfold BATCH_SIZE; lia).
  rewrite merge_sort_Permutation. apply list_elem_of_filter.
  split; [by apply Is_true_true|done].
Qed.

Lemma filter_none (P : OutboxDoc → bool) (l : list OutboxDoc) :
  (∀ x, x ∈ l → P x = false) → filter P l = [].
Proof.
  induction l as [|x l IH]; intros Hl; [done|].
  rewrite filter_cons. rewrite (Hl x) by left. simpl.
  apply IH. intros y Hy. apply Hl. by right.
Qed.

Lemma accepted_all events :
  (∀ d, publish_error d = None) → taken events = events.
Proof.
  intros Hup. induction events as [|e es IH]; [done|].
  unfold accepted in *. cbn [List.filter].
  rewrite bool_decide_eq_true_2 by apply Hup. by rewrite IH.
Qed.

Lemma accepted_none events (reason : OutboxDoc → string) :
  (∀ d, publish_error d = Some (reason d)) → taken events = [].
Proof.
  intros Hdown. induction events as [|e es IH]; [done|].
  unfold accepted in *. cbn [List.filter].
  rewrite bool_decide_eq_false_2 by (by rewrite Hdown). exact IH.
Qed.

(** X16.  With the bus up and life enough for the whole batch, the worker
    sends the message of every event of the batch, in the order of the
    batch, marks exactly those events published and touches nothing else.
    When no more than a hundred events were pending, nothing is pending
    afterwards: the next batch is empty. *)
Theorem bus_up_batch_publishes_all life w :
  NoDup (oid <$> outbox w) →
  (∀ d, publish_error d = None) →
  (2 * length (Outbox_find (outbox w)) ≤ life)%nat →
  batch life w
  = (Finished,
     mkWorld ((λ d, if bool_decide (d ∈ Outbox_find (outbox w))
                    then set_published (now d) d else d) <$> outbox w)
             (nats w ++ (message_of <$> Outbox_find (outbox w))))
  ∧ ((length (filter pending (outbox w)) ≤ 100)%nat →
     Outbox_find (outbox (batch life w).2) = []).
Proof.
  intros Hc Hup Hlife.
  destruct (publishEach_outbox (Outbox_find (outbox w)) life w)
    as (_ & _ & Hfull);
    [done|by apply Outbox_find_NoDup|apply Outbox_find_subseteq|].
  assert (batch life w
          = (Finished,
             mkWorld ((λ d, if bool_decide (d ∈ Outbox_find (outbox w))
                            then set_published (now d) d else d) <$> outbox w)
                     (nats w ++ (message_of <$> Outbox_find (outbox w)))))
    as Hrun.
  { unfold publishBatch. rewrite (Hfull Hlife). f_equal. f_equal.
    - apply fmap_ext_in. intros d Hd.
      destruct (decide (d ∈ Outbox_find (outbox w))) as [Hin|Hout].
      + rewrite !bool_decide_eq_true_2; [|done|by apply in_batch_by_oid].
        unfold settle. rewrite Hup.
        apply Outbox_find_pending in Hin as [_ Hpending].
        unfold pending in Hpending. by destruct (published d).
      + rewrite !bool_decide_eq_false_2; [done|done|].
        by rewrite in_batch_by_oid.
    - by rewrite accepted_all. }
  split; [exact Hrun|]. intros Hfew. rewrite Hrun. cbn [snd outbox].
  unfold Outbox_find at 1. rewrite filter_none; [done|].
  intros d' (d & -> & Hd)%list_elem_of_fmap.
  case_bool_decide as Hin.
  - unfold pending. done.
  - destruct (pending d) eqn:Hpending; [|done].
    destruct Hin. by apply Outbox_find_all.
Qed.

(** X17.  With the bus down and life enough for the whole batch, nothing
    reaches the bus and nothing is marked; every event of the batch, and no
    other, has one more attempt and the error of its publish as its last
    error. *)
Theorem bus_down_batch_counts_attempts life w (reason : OutboxDoc → string) :
  NoDup (oid <$> outbox w) →
  (∀ d, publish_error d = Some (reason d)) →
  (2 * length (Outbox_find (outbox w)) ≤ life)%nat →
  batch life w
  = (Finished,
     mkWorld ((λ d, if bool_decide (d ∈ Outbox_find (outbox w))
                    then record_failure (reason d) d else d) <$> outbox w)
             (nats w)).
Proof.
  intros Hc Hdown Hlife.
  destruct (publishEach_outbox (Outbox_find (outbox w)) life w)
    as (_ & _ & Hfull);
    [done|by apply Outbox_find_NoDup|apply Outbox_find_subseteq|].
  unfold publishBatch. rewrite (Hfull Hlife). f_equal. f_equal.
  - apply fmap_ext_in. intros d Hd.
    destruct (decide (d ∈ Outbox_find (outbox w))) as [Hin|Hout].
    + rewrite !bool_decide_eq_true_2; [|done|by apply in_batch_by_oid].
      unfold settle. by rewrite Hdown.
    + rewrite !bool_decide_eq_false_2; [done|done|].
      by rewrite in_batch_by_oid.
  - rewrite (accepted_none _ reason) by done. apply app_nil_r.
Qed.

(** X18.  The attempt counter stays within the ceiling: if no stored event
    has more than ten attempts, none has after a batch, however the
    publishes go and wherever the batch stops; an event that has reached
    ten is not pending any more. *)
Theorem attempts_stay_within_ceiling life w :
  NoDup (oid <$> outbox w) →
  Forall (λ d, attempts d ≤ 10) (outbox w) →
  Forall (λ d, attempts d ≤ 10 ∧ (attempts d = 10 → pending d = false))
         (outbox (batch life w).2).
Proof.
  intros Hc Hceiling.
  destruct (publishEach_outbox (Outbox_find (outbox w)) life w)
    as (n & Hn & _);
    [done|by apply Outbox_find_NoDup|apply Outbox_find_subseteq|].
  unfold publishBatch. rewrite Hn. apply Forall_fmap, Forall_forall.
  intros d Hd. simpl.
  assert (∀ d', attempts d' ≤ 10 → attempts d' ≤ 10
                 ∧ (attempts d' = 10 → pending d' = false)) as Hnot.
  { intros d' Hle. split; [done|]. intros Heq. unfold pending.
    rewrite bool_decide_eq_false_2 by (unfold MAX_RETRIES; lia).
    apply andb_false_r. }
  rewrite Forall_forall in Hceiling.
  case_bool_decide as Hin; [|by apply Hnot, Hceiling].
  apply Hnot.
  assert (d ∈ Outbox_find (outbox w)) as Hbatch.
  { apply in_batch_by_oid; [done..|].
    apply list_elem_of_fmap in Hin as (e & -> & He%subseteq_take).
    apply list_elem_of_fmap. by exists e. }
  apply Outbox_find_pending in Hbatch as [_ Hpending].
  unfold pending in Hpending. apply andb_true_iff in Hpending as [_ Hatt].
  apply bool_decide_eq_true in Hatt. unfold MAX_RETRIES in Hatt.
  unfold settle. destruct (publish_error d); simpl; [lia|].
  destruct (published d); simpl; lia.
Qed.

End Facts.

Import MoreSamples.

Lemma backlog_ids_distinct : NoDup (oid <$> outbox backlog).
Proof. by apply (bool_decide_unpack _). Qed.

Lemma crash_after_publish_duplicates_witness :
  publishBatch (λ _, None) (λ _, 100) 1 backlog
  = (Killed, mkWorld (outbox backlog) [("OrderCancelled", "{o2}")])
  ∧ ∃ more,
      nats (publishBatch (λ _, None) (λ _, 100) 2
              (publishBatch (λ _, None) (λ _, 100) 1 backlog).2).2
      = [("OrderCancelled", "{o2}"); ("OrderCancelled", "{o2}")] ++ more.
Proof.
  apply (crash_after_publish_duplicates (λ _, None) (λ _, 100) 2 backlog
           flaky [fresh]).
  - reflexivity.
  - reflexivity.
  - discriminate.
Defined.

Lemma bus_up_batch_publishes_all_witness :
  publishBatch (λ _, None) (λ _, 100) 4 backlog
  = (Finished,
     mkWorld [set_published 100 fresh; set_published 100 flaky; sent; exhausted]
             [("OrderCancelled", "{o2}"); ("OrderCreated", "{o1}")])
  ∧ Outbox_find (outbox (publishBatch (λ _, None) (λ _, 100) 4 backlog).2) = [].
Proof.
  destruct (bus_up_batch_publishes_all (λ _, None) (λ _, 100) 4 backlog)
    as (Hrun & Hnext).
  - apply backlog_ids_distinct.
  - reflexivity.
  - vm_compute. lia.
  - split; [exact Hrun|]. apply Hnext. vm_compute. lia.
Defined.

Lemma bus_down_batch_counts_attempts_witness :
  publishBatch (λ _, Some "NATS connection closed") (λ _, 100) 4 backlog
  = (Finished,
     mkWorld [record_failure "NATS connection closed" fresh;
              record_failure "NATS connection closed" flaky; sent; exhausted]
             []).
Proof.
  apply (bus_down_batch_counts_attempts
           (λ _, Some "NATS connection closed") (λ _, 100) 4 backlog
           (λ _, "NATS connection closed")).
  - apply backlog_ids_distinct.
  - reflexivity.
  - vm_compute. lia.
Defined.

Lemma attempts_stay_within_ceiling_witness :
  Forall (λ d, attempts d ≤ 10 ∧ (attempts d = 10 → pending d = false))
         (outbox (publishBatch (λ _, Some "NATS connection closed") (λ _, 100)
                    4 backlog).2).
Proof.
  apply (attempts_stay_within_ceiling
           (λ _, Some "NATS connection closed") (λ _, 100) 4 backlog).
  - apply backlog_ids_distinct.
  - repeat constructor; vm_compute; discriminate.
Defined.

End OutboxWorkerFacts.

(** ** The transactional write *)

Module OutboxWriteFacts.
Import Common OutboxWrite.

Section Facts.

Variable isReserved : Ticket -> bool.
Variable status : OrderStatus.
Variable expiresAt : Z.
Variable new_ObjectId : list Order -> string.
Variable save_error : option string.
Variable create_error : option string.
Variable commit_error : option string.

Local Abbreviation route :=
  (createOrderRouter isReserved status expiresAt new_ObjectId
                     save_error create_error commit_error).

(** The order the route builds for a ticket, and its outbox entry. *)
Local Abbreviation built req d ticket :=
  (mkOrder (new_ObjectId (orders d)) (currentUser_id req) status expiresAt
           ticket 0).
Local Abbreviation entry_of order :=
  (mkEntry "Order" (order_id order) "OrderCreated"
     (mkPayload (order_id order) (order_version order) (order_status order)
        (order_userId order) (order_expiresAt order)
        (ticket_id (order_ticket order)) (ticket_price (order_ticket order)))).

Ltac run_route :=
  unfold createOrderRouter, startTransaction, try_finally, try_catch, step,
    mbind, M_bind, mret, M_ret, write_in_session, commit, drop_transaction,
    stored; simpl.

(** X19.  The order and its outbox entry are stored together or not at
    all.  Whatever fails (the save, the outbox write, the commit) and
    wherever the process dies, a run that starts outside a transaction
    leaves the database either as it was, or with exactly one more order
    and exactly one more outbox entry, the OrderCreated entry of that
    order.  A thrown error leaves the database as it was, and a response
    is a 201 for an order that is stored. *)
Theorem order_and_outbox_entry_together req life s :
  transaction s = None →
  (stored (route req life s) = db s
   ∨ ∃ ticket,
       ticket ∈ tickets (db s)
       ∧ ticket_id ticket = body_ticketId req
       ∧ stored (route req life s)
         = mkDb (tickets (db s))
                (orders (db s) ++ [built req (db s) ticket])
                (outbox (db s) ++ [entry_of (built req (db s) ticket)]))
  ∧ (∀ e s', route req life s = Thrown e s' → db s' = db s)
  ∧ (∀ code order life' s',
       route req life s = Returned (code, order) life' s' →
       code = 201%nat
       ∧ db s' = mkDb (tickets (db s)) (orders (db s) ++ [order])
                      (outbox (db s) ++ [entry_of order])).
Proof.
  intros Hnone. run_route.
  destruct (List.find _ (tickets (db s))) as [ticket|] eqn:Hfind;
    [|by split_and!; [left|intros ?? [= _ <-]|]].
  apply List.find_some in Hfind as [Hin%list_elem_of_In Hid%bool_decide_eq_true].
  destruct (isReserved ticket); [by split_and!; [left|intros ?? [= _ <-]|]|].
  destruct life as [|life]; [by split_and!; [left| |]|].
  destruct save_error; [by split_and!; [left|intros ?? [= _ <-]|]|]. simpl.
  destruct life as [|life]; [by split_and!; [left| |]|].
  destruct create_error; [by split_and!; [left|intros ?? [= _ <-]|]|]. simpl.
  destruct life as [|life]; [by split_and!; [left| |]|].
  destruct commit_error; [by split_and!; [left|intros ?? [= _ <-]|]|]. simpl.
  destruct life as [|life]; simpl.
  - split_and!; [right; by exists ticket|done|done].
  - split_and!; [right; by exists ticket|done|].
    by intros code order life' s' [= <- <- <- <-].
Qed.

(** X20.  The commit is the point of no return.  For a ticket that is
    found and not reserved, with no failure on the way: a process that
    dies before the commit has stored neither the order nor the entry,
    although both writes were made; a process that takes the commit has
    stored both, even if it dies right after it, before it answers. *)
Theorem commit_is_the_point_of_no_return req life s ticket :
  transaction s = None →
  List.find (λ t, bool_decide (ticket_id t = body_ticketId req)) (tickets (db s))
  = Some ticket →
  isReserved ticket = false →
  save_error = None → create_error = None → commit_error = None →
  ((life ≤ 2)%nat →
   route req life s
   = Killed (mkState (db s)
               (Some (take life
                        [SaveOrder (built req (db s) ticket);
                         CreateOutbox (entry_of (built req (db s) ticket))]))))
  ∧ ((3 ≤ life)%nat →
     stored (route req life s)
     = mkDb (tickets (db s))
            (orders (db s) ++ [built req (db s) ticket])
            (outbox (db s) ++ [entry_of (built req (db s) ticket)])
     ∧ (life = 3%nat → ∃ s', route req life s = Killed s')).
Proof.
  intros Hnone Hfind Hfree -> -> ->. run_route. rewrite Hfind, Hfree.
  split.
  - intros Hlife. destruct life as [|[|[|life]]]; [done|done|done|lia].
  - intros Hlife. destruct life as [|[|[|[|life]]]]; try lia; simpl.
    + split; [done|]. intros _. by eexists.
    + split; [done|]. intros [=].
Qed.

End Facts.

Import MoreSamples.

Lemma order_and_outbox_entry_together_witness :
  stored (createOrderRouter (λ _, false) Created 900 (λ _, "o1")
            None None (Some "WriteConflict")
            (mkRequest "t1" "alice") 4%nat box_office)
  = db box_office
  ∨ ∃ ticket,
      ticket ∈ tickets (db box_office)
      ∧ ticket_id ticket = "t1"
      ∧ stored (createOrderRouter (λ _, false) Created 900 (λ _, "o1")
                  None None (Some "WriteConflict")
                  (mkRequest "t1" "alice") 4%nat box_office)
        = mkDb (tickets (db box_office))
               (orders (db box_office)
                ++ [mkOrder "o1" "alice" Created 900 ticket 0])
               (outbox (db box_office)
                ++ [mkEntry "Order" "o1" "OrderCreated"
                      (mkPayload "o1" 0 Created "alice" 900
                         (ticket_id ticket) (ticket_price ticket))]).
Proof.
  apply (order_and_outbox_entry_together (λ _, false) Created 900 (λ _, "o1")
           None None (Some "WriteConflict")
           (mkRequest "t1" "alice") 4%nat box_office).
  reflexivity.
Defined.

Lemma commit_is_the_point_of_no_return_witness :
  createOrderRouter (λ _, false) Created 900 (λ _, "o1") None None None
    (mkRequest "t1" "alice") 2%nat box_office
  = Killed (mkState (db box_office)
              (Some [SaveOrder (mkOrder "o1" "alice" Created 900
                                        (mkTicket "t1" 20) 0);
                     CreateOutbox
                       (mkEntry "Order" "o1" "OrderCreated"
                          (mkPayload "o1" 0 Created "alice" 900 "t1" 20))]))
  ∧ stored (createOrderRouter (λ _, false) Created 900 (λ _, "o1") None None None
              (mkRequest "t1" "alice") 3%nat box_office)
    = mkDb [mkTicket "t1" 20]
           [mkOrder "o1" "alice" Created 900 (mkTicket "t1" 20) 0]
           [mkEntry "Order" "o1" "OrderCreated"
              (mkPayload "o1" 0 Created "alice" 900 "t1" 20)].
Proof.
  split.
  - apply (commit_is_the_point_of_no_return (λ _, false) Created 900 (λ _, "o1")
             None None None (mkRequest "t1" "alice") 2%nat box_office
             (mkTicket "t1" 20)); first [reflexivity | lia].
  - apply (commit_is_the_point_of_no_return (λ _, false) Created 900 (λ _, "o1")
             None None None (mkRequest "t1" "alice") 3%nat box_office
             (mkTicket "t1" 20)); first [reflexivity | lia].
Defined.

End OutboxWriteFacts.

(** ** The payments application, its test double, the order page *)

Module AppFacts.
Import App.

Lemma append_cons c s t : String c s +:+ t = String c (s +:+ t).
Proof. reflexivity. Qed.

Lemma split_not_nil sep s : split sep s ≠ [].
Proof.
  destruct s as [|c s]; simpl; [done|].
  case_bool_decide; [done|]. by destruct (split sep s).
Qed.

(** A piece without separator in front of a string goes to the front of
    its first piece. *)
Lemma split_app sep o s :
  mentions sep o = false →
  split sep (o +:+ s)
  = match split sep s with
    | piece :: pieces => (o +:+ piece) :: pieces
    | [] => [o]
    end.
Proof.
  induction o as [|c o IH]; intros Hfree.
  - change ("" +:+ s) with s.
    destruct (split sep s) eqn:Hs; [by apply split_not_nil in Hs|done].
  - simpl in Hfree. apply orb_false_iff in Hfree as [Hc Hfree].
    rewrite append_cons. simpl. rewrite Hc, (IH Hfree).
    by destruct (split sep s).
Qed.

Lemma split_sep sep s : split sep (String sep s) = "" :: split sep s.
Proof. simpl. by rewrite bool_decide_eq_true_2. Qed.

Lemma split_concat sep (pieces : list string) :
  pieces ≠ [] →
  Forall (λ o, mentions sep o = false) pieces →
  split sep (String.concat (String sep "") pieces) = pieces.
Proof.
  intros Hne Hfree. induction Hfree as [|o pieces Ho Hfree IH]; [done|].
  destruct pieces as [|o' pieces].
  - simpl. rewrite <- (StartupFacts.append_empty o) at 1.
    rewrite split_app by done. simpl. by rewrite StartupFacts.append_empty.
  - change (String.concat (String sep "") (o :: o' :: pieces))
      with (o +:+ String sep (String.concat (String sep "") (o' :: pieces))).
    rewrite split_app, split_sep, IH by done.
    by rewrite StartupFacts.append_empty.
Qed.

(** X21.  Reading the allowed origins back: for origins that are not
    empty, hold no comma and are left alone by [trim], setting CORS_ORIGIN
    to their comma-separated list gives exactly that list.  The empty list
    included: CORS_ORIGIN set to the empty string allows no origin at all,
    whereas an unset CORS_ORIGIN allows any. *)
Theorem corsOrigins_round_trip (trim : string → string)
    (env : gmap string string) (origins : list string) :
  trim "" = "" →
  Forall (λ o, o ≠ "" ∧ trim o = o ∧ mentions ","%char o = false) origins →
  corsOrigins trim (<["CORS_ORIGIN" := String.concat "," origins]> env)
  = Origins origins
  ∧ corsOrigins trim (delete "CORS_ORIGIN" env) = AnyOrigin.
Proof.
  intros Hempty Horigins. unfold corsOrigins.
  rewrite lookup_insert_eq, lookup_delete_eq. split; [|done]. f_equal.
  destruct origins as [|o origins].
  - simpl. rewrite Hempty. by rewrite bool_decide_eq_true_2.
  - rewrite split_concat; [|done|].
    2:{ eapply Forall_impl; [exact Horigins|]. by intros x (_ & _ & ?). }
    induction Horigins as [|x xs (Hx & Htrim & _) _ IH]; [done|].
    cbn [fmap list_fmap List.filter]. rewrite Htrim.
    rewrite bool_decide_eq_false_2 by done. simpl. f_equal. exact IH.
Qed.

(** X22.  The test double of the gateway records every call and never
    refuses one: after any sequence of calls, [list] returns the charges it
    had, followed by one charge per call, in the order of the calls, with
    the amount and the currency of each.  It does not look at the
    idempotency key, so a repeated call is a second charge. *)
Theorem mock_records_every_call
    (calls : list (string * Payments.ChargeCall)) (charges : list Charge) :
  mock_list (mock_creates calls charges)
  = charges
    ++ ((λ rc, mkCharge ("ch_" +:+ rc.1) (Payments.amount rc.2)
                        (Payments.currency rc.2)) <$> calls).
Proof.
  unfold mock_list, mock_creates. revert charges.
  induction calls as [|rc calls IH]; intros charges; simpl.
  - by rewrite app_nil_r.
  - rewrite IH. by rewrite <- app_assoc.
Qed.

Lemma corsOrigins_round_trip_witness :
  corsOrigins (λ o, o)
    (<["CORS_ORIGIN" := "https://ticketing.dev,https://admin.ticketing.dev"]> ∅)
  = Origins ["https://ticketing.dev"; "https://admin.ticketing.dev"]
  ∧ corsOrigins (λ o, o) (<["CORS_ORIGIN" := ""]> ∅) = Origins [].
Proof.
  split.
  - apply (corsOrigins_round_trip (λ o, o) ∅
             ["https://ticketing.dev"; "https://admin.ticketing.dev"]).
    + reflexivity.
    + repeat constructor; first [discriminate | reflexivity].
  - apply (corsOrigins_round_trip (λ o, o) ∅ []); [reflexivity|constructor].
Defined.

End AppFacts.

Module OrderPageFacts.
Import OrderPage.

(** Rounding to seconds: the nearest second, a half rounding up. *)
Lemma findTimeLeft_bounds (expiresAt now : Z) :
  -500 ≤ expiresAt - now - 1000 * findTimeLeft expiresAt now < 500.
Proof.
  unfold findTimeLeft, round_seconds.
  pose proof (Z.div_mod (expiresAt - now + 500) 1000) as Hdiv.
  pose proof (Z.mod_pos_bound (expiresAt - now + 500) 1000) as Hmod.
  lia.
Qed.

(** The state is what the last tick set. *)
Lemma timeLeft_snoc (ticks : list (Z * Z)) (expiresAt t : Z) :
  timeLeft (ticks ++ [(expiresAt, t)]) = findTimeLeft expiresAt t.
Proof. unfold timeLeft. by rewrite foldl_app. Qed.

(** X23.  The order page shows what the last run of [findTimeLeft] left in
    its state, not the time left at the moment of rendering.  At the first
    render, before the effect has run, it shows "Time left to pay: 0
    seconds" with the checkout form, also for an order that expired long
    ago.  After that it shows "Order Expired" exactly when, at the last
    tick, the order had expired more than half a second earlier; otherwise
    it shows a countdown that is never negative and that was off from the
    time left at the last tick by at most half a second.  So "Order
    Expired" is never shown before the order has expired, and the page can
    lag behind the expiry by the time since its last tick.  The two times
    of the last tick are less than 2^50 milliseconds apart, the range in
    which [round_seconds] is what JavaScript computes. *)
Theorem order_page_shows_last_tick (ticks : list (Z * Z)) (expiresAt t : Z) :
  Z.abs (expiresAt - t) < 2 ^ 50 →
  shown [] = TimeLeftToPay 0
  ∧ (shown (ticks ++ [(expiresAt, t)]) = OrderExpired ↔ t - expiresAt > 500)
  ∧ (∀ seconds,
       shown (ticks ++ [(expiresAt, t)]) = TimeLeftToPay seconds →
       0 ≤ seconds
       ∧ -500 ≤ expiresAt - t - 1000 * seconds < 500)
  ∧ (∀ now, t ≤ now →
       shown (ticks ++ [(expiresAt, t)]) = OrderExpired → expiresAt < now).
Proof.
  intros _. unfold shown. rewrite timeLeft_snoc. unfold OrderShow.
  pose proof (findTimeLeft_bounds expiresAt t) as Hround.
  split_and!.
  - done.
  - case_bool_decide as Hneg; split; try done; lia.
  - intros seconds. case_bool_decide as Hneg; [done|].
    intros [= <-]. lia.
  - intros now Hnow. case_bool_decide as Hneg; [|done]. intros _. lia.
Qed.

(** An order with 900 seconds to go when the page opens: the page counts
    down from 900; the tick 400 ms after the expiry still shows the form,
    with 0 seconds left; the tick one second later shows "Order
    Expired". *)
Lemma order_page_shows_last_tick_witness :
  shown [(1700000900000, 1700000000250)] = TimeLeftToPay 900
  ∧ shown [(1700000900000, 1700000000250); (1700000900000, 1700000900400)]
    = TimeLeftToPay 0
  ∧ (shown [(1700000900000, 1700000000250); (1700000900000, 1700000900400);
            (1700000900000, 1700000901400)] = OrderExpired
     ↔ 1700000901400 - 1700000900000 > 500).
Proof.
  split_and!; [reflexivity..|].
  apply (order_page_shows_last_tick
           [(1700000900000, 1700000000250); (1700000900000, 1700000900400)]
           1700000900000 1700000901400).
  vm_compute. reflexivity.
Defined.

End OrderPageFacts.

(** ** More on the ticket listener *)

Module OrdersMore.
Import Common Versioned Orders OrdersFacts.

(** X24.  Poison messages.  A TicketUpdated event for a ticket the service
    has no replica of, or one with a version of 0 or less when no replica
    has a negative version, makes the listener throw "Ticket not found"
    and leaves the world as it was; delivered again, any number of times,
    it does the same. *)
Theorem unanswerable_update_is_poison data w :
  (tickets w !! tu_id data = None
   ∨ (tu_version data ≤ 0
      ∧ map_Forall (λ _ d, 0 ≤ doc_version d) (tickets w))) →
  TicketUpdatedListener_onMessage data w = (Throw "Ticket not found", w)
  ∧ ∀ n, run (replicate n (TicketUpdated data)) w = w.
Proof.
  intros Hwhy.
  assert (TicketUpdatedListener_onMessage data w = (Throw "Ticket not found", w))
    as Hthrow.
  { destruct (tickets w !! tu_id data) as [ticket|] eqn:Hticket.
    - destruct Hwhy as [?|[Hversion Hall]]; [done|].
      apply (version_mismatch_throws data w ticket Hticket).
      specialize (Hall _ _ Hticket). simpl in Hall. lia.
    - unfold TicketUpdatedListener_onMessage, findOne. by rewrite Hticket. }
  split; [exact Hthrow|].
  intros n. induction n as [|n IH]; [done|].
  unfold run in *. simpl. by rewrite Hthrow.
Qed.

Import Samples.

Lemma unanswerable_update_is_poison_witness :
  TicketUpdatedListener_onMessage (mkTicketUpdated "t9" 4 "opera" 35 None) desk
  = (Throw "Ticket not found", desk)
  ∧ run (replicate 3 (TicketUpdated (mkTicketUpdated "t9" 4 "opera" 35 None))) desk
    = desk.
Proof.
  destruct (unanswerable_update_is_poison
              (mkTicketUpdated "t9" 4 "opera" 35 None) desk) as [Hthrow Hrun].
  - left. reflexivity.
  - split; [exact Hthrow|apply Hrun].
Defined.

End OrdersMore.
